(** * Verification of [c2rust-refactor/gen/rewrite.py]

    The Python module generates Rust source text: [Rewrite], [Recursive] and
    [RecoverChildren] impls for every AST node type.  This development embeds
    the generator (attribute lookups, strategy selection, precedence
    expressions, the yielded lines) and gives the yielded Rust fragments a
    semantics, so that statements about "the generated impl" are statements
    about what the emitted text does when run. *)

From Stdlib Require Import Ascii String Bool Arith Lia.
From stdpp Require Import base option list strings gmap.

Local Open Scope string_scope.
Local Open Scope list_scope.

#[local] Arguments String.append !_ _ : simpl nomatch.
#[local] Arguments Ascii.eqb !_ !_ : simpl nomatch.

(** ** Python strings

    Strings are modelled as ASCII text.  [s1 +:+ s2] is concatenation; a
    [%]-format with only [%s] directives is written as the concatenation it
    denotes. *)

Module PyStr.

(** The double-quote and newline characters. *)
Definition dq : string := String "034"%char "".
Definition nl : ascii := "010"%char.

Definition is_upper (c : ascii) : bool :=
  let n := nat_of_ascii c in Nat.leb 65 n && Nat.leb n 90.
Definition is_lower (c : ascii) : bool :=
  let n := nat_of_ascii c in Nat.leb 97 n && Nat.leb n 122.
Definition is_digit (c : ascii) : bool :=
  let n := nat_of_ascii c in Nat.leb 48 n && Nat.leb n 57.

(** Membership in the class [[a-zA-Z0-9_]], which on ASCII text is also the
    class [\w] that decides [\b]. *)
Definition is_word (c : ascii) : bool :=
  is_upper c || is_lower c || is_digit c || Ascii.eqb c "_"%char.

Fixpoint any_char (p : ascii -> bool) (s : string) : bool :=
  match s with
  | EmptyString => false
  | String c s' => p c || any_char p s'
  end.

(** [str.isupper()]: at least one cased character and no lowercase one. *)
Definition isupper (s : string) : bool :=
  any_char is_upper s && negb (any_char is_lower s).

(** [s.split(',')]: never empty; [''.split(',') = ['']]. *)
Fixpoint split_comma (s : string) : list string :=
  match s with
  | EmptyString => [EmptyString]
  | String c s' =>
      if Ascii.eqb c ","%char then EmptyString :: split_comma s'
      else match split_comma s' with
           | [] => [String c EmptyString]
           | w :: ws => String c w :: ws
           end
  end.

(** [x in l] for a list or tuple of strings. *)
Definition str_in (x : string) (l : list string) : bool :=
  existsb (String.eqb x) l.

(** Truthiness of the result of [attrs.get(k)]: [None] and [''] are false. *)
Definition truthy (o : option string) : option string :=
  match o with
  | Some EmptyString => None
  | _ => o
  end.

(** [fmt % arg] for a format holding [%s] directives and one argument: the
    first [%s] is replaced. *)
Fixpoint percent_s (fmt arg : string) : string :=
  match fmt with
  | String "%"%char (String "s"%char rest) => arg +:+ rest
  | String c rest => String c (percent_s rest arg)
  | EmptyString => EmptyString
  end.

Fixpoint strip_prefix (p s : string) : option string :=
  match p with
  | EmptyString => Some s
  | String a p' =>
      match s with
      | String b s' => if Ascii.eqb a b then strip_prefix p' s' else None
      | EmptyString => None
      end
  end.

Fixpoint rev_str (acc s : string) : string :=
  match s with
  | EmptyString => acc
  | String c s' => rev_str (String c acc) s'
  end.

Definition strip_suffix (suf s : string) : option string :=
  match strip_prefix (rev_str "" suf) (rev_str "" s) with
  | Some r => Some (rev_str "" r)
  | None => None
  end.

(** The text between a fixed prefix and a fixed suffix. *)
Definition between (p suf s : string) : option string :=
  match strip_prefix p s with
  | Some r => strip_suffix suf r
  | None => None
  end.

End PyStr.
Import PyStr.

(** ** The declarations read by the generator

    The [ast] module that parses the node declarations is not among the
    sources at hand; the records below keep exactly what [rewrite.py] reads
    from a declaration: its kind ([isinstance] against [Struct], [Enum],
    [Flag]), [name], [attrs], and for each variant its [fields] with their
    [name] and [attrs].  An attribute dictionary maps a name to its text; an
    attribute given without a value carries the empty text. *)

Inductive DeclKind := Struct | Enum | Flag.

Record Field := mkField {
  field_name : string;
  field_attrs : gmap string string
}.

Record Variant := mkVariant {
  variant_name : string;
  variant_fields : list Field
}.

Record Decl := mkDecl {
  decl_kind : DeclKind;
  decl_name : string;
  decl_attrs : gmap string string;
  decl_variants : list Variant
}.

Definition is_flag (d : Decl) : bool :=
  match decl_kind d with Flag => true | _ => false end.

Definition is_struct_or_enum (d : Decl) : bool :=
  match decl_kind d with Struct | Enum => true | Flag => false end.

(** [k in attrs] *)
Definition has_attr (a : gmap string string) (k : string) : bool :=
  match a !! k with Some _ => true | None => false end.

(** The helpers imported from the [util] module, and [textwrap.indent], are
    outside the sources at hand: the generator is parametric in them. *)
Class Util := {
  linewise : list string -> string;
  indent : string -> string -> string;
  has_field : Decl -> string -> bool;
  variants_paths : Decl -> list (Variant * string);
  struct_pattern : Variant -> string -> string -> string
}.

(** ** Precedence expressions *)

Definition prec_name_to_expr (name : string) (inc : bool) : string :=
  let inc_str := if negb inc then "" else " + 1" in
  if isupper name then
    "parser::PREC_" +:+ name +:+ inc_str
  else
    "parser::AssocOp::" +:+ name +:+ ".precedence() as i8" +:+ inc_str.

Definition field_prec_expr (f : Field) (first : bool) (suffix : string) : string :=
  let prec_val := "parser::PREC_RESET" in
  let prec_val :=
    match truthy (field_attrs f !! "prec") with
    | Some prec => prec_name_to_expr prec false
    | None => prec_val
    end in
  let prec_val :=
    match truthy (field_attrs f !! "prec_inc") with
    | Some prec_inc => prec_name_to_expr prec_inc true
    | None => prec_val
    end in
  match truthy (field_attrs f !! "prec_left_of_binop") with
  | Some left_of => "binop_left_prec(" +:+ (left_of +:+ suffix) +:+ ")"
  | None =>
      match truthy (field_attrs f !! "prec_right_of_binop") with
      | Some right_of => "binop_right_prec(" +:+ (right_of +:+ suffix) +:+ ")"
      | None =>
          let prec_val :=
            match truthy (field_attrs f !! "prec_first") with
            | Some prec_first =>
                if first then prec_name_to_expr prec_first false else prec_val
            | None => prec_val
            end in
          let ctor := default "Normal" (field_attrs f !! "prec_special") in
          "ExprPrec::" +:+ ctor +:+ "(" +:+ prec_val +:+ ")"
      end
  end.

(** ** [rewrite_field_expr]: the substitution of [SELF_FIELD_RE]

    [re.sub] scans left to right.  A match of [\bself.([a-zA-Z0-9_]+)\b] at a
    position needs a word boundary before the [s] (the previous character is
    not a word character), the text [self], any one character but a newline
    (the dot is not escaped), and a non-empty run of word characters, taken
    greedily, so that the closing [\b] holds at its end. *)

Fixpoint word_run (s : string) : string * string :=
  match s with
  | String c s' =>
      if is_word c then let '(w, r) := word_run s' in (String c w, r)
      else (EmptyString, s)
  | EmptyString => (EmptyString, EmptyString)
  end.

(** The captured group and the length of the match, for a match at the head. *)
Definition self_field_match (s : string) : option (string * nat) :=
  match strip_prefix "self" s with
  | Some (String c r) =>
      if Ascii.eqb c nl then None
      else match word_run r with
           | (EmptyString, _) => None
           | (name, _) => Some (name, 5 + String.length name)
           end
  | _ => None
  end.

(** [prev_word]: the previous character is a word character; [skip]: how
    many characters of the last match are still to be consumed. *)
Fixpoint self_field_sub (repl : string -> string) (prev_word : bool) (skip : nat)
    (s : string) : string :=
  match s with
  | EmptyString => EmptyString
  | String c s' =>
      match skip with
      | S k => self_field_sub repl (is_word c) k s'
      | O =>
          match (if prev_word then None else self_field_match s) with
          | Some (name, len) =>
              repl name +:+ self_field_sub repl (is_word c) (len - 1) s'
          | None => String c (self_field_sub repl (is_word c) 0 s')
          end
      end
  end.

Definition rewrite_field_expr (expr fmt : string) : string :=
  let repl := fun group1 =>
    let var_name := percent_s fmt group1 in
    "(*" +:+ var_name +:+ ")" in
  self_field_sub repl false 0 expr.

(** ** Trait availability and strategy selection *)

Definition DEFAULT_GEN_TRAITS : list string :=
  ["Rewrite"; "MaybeRewriteSeq"; "RecoverChildren"].
Definition DEFAULT_STRUCT_ENUM_GEN_TRAITS : list string := ["Recursive"].

Definition listed (o : option string) (trait : string) : bool :=
  match o with
  | Some l => str_in trait (split_comma l)
  | None => false
  end.

Definition type_has_impl (d : Decl) (trait : string) : bool :=
  if listed (decl_attrs d !! "rewrite_skip") trait then false
  else if listed (decl_attrs d !! "rewrite_gen") trait then true
  else if listed (decl_attrs d !! "rewrite_custom") trait then true
  else if has_attr (decl_attrs d) "rewrite_print"
          && str_in trait ["PrintParse"; "Splice"] then true
  else if has_attr (decl_attrs d) "rewrite_print_recover"
          && str_in trait ["PrintParse"; "Splice"; "Recover"] then true
  else if has_attr (decl_attrs d) "rewrite_seq_item"
          && String.eqb trait "SeqItem" then true
  else if str_in trait DEFAULT_GEN_TRAITS then true
  else if is_struct_or_enum d && str_in trait DEFAULT_STRUCT_ENUM_GEN_TRAITS then true
  else false.

Definition type_needs_generated_impl (d : Decl) (trait : string) : bool :=
  if listed (decl_attrs d !! "rewrite_skip") trait then false
  else if listed (decl_attrs d !! "rewrite_gen") trait then true
  else if has_attr (decl_attrs d) "rewrite_seq_item"
          && String.eqb trait "SeqItem" then true
  else if str_in trait DEFAULT_GEN_TRAITS then true
  else if is_struct_or_enum d && str_in trait DEFAULT_STRUCT_ENUM_GEN_TRAITS then true
  else false.

Definition get_rewrite_strategies (d : Decl) : list string :=
  match decl_attrs d !! "rewrite_strategies" with
  | Some strats_str => split_comma strats_str
  | None =>
      let strats := [] in
      let strats :=
        if is_flag d then strats ++ ["equal"]
        else if type_has_impl d "Recursive" then strats ++ ["recursive"]
        else strats in
      let strats :=
        match decl_attrs d !! "rewrite_extra_strategies" with
        | Some extra_strats => strats ++ split_comma extra_strats
        | None => strats
        end in
      let strats :=
        if forallb (type_has_impl d) ["PrintParse"; "RecoverChildren"; "Splice"]
        then strats ++ ["print"]
        else strats in
      strats
  end.

(** ** The generators

    Every generator function of the source is decorated with [@linewise]; its
    body yields text items.  [f_lines] is the list of items the body of [f]
    yields, in order, and [f] itself the decorated function. *)

Section Generators.
Context `{U : Util}.

Definition yield_if (b : bool) (line : string) : list string :=
  if b then [line] else [].

(** *** [Rewrite] impls *)

Definition do_rewrite_impl_lines (d : Decl) : list string :=
  if has_attr (decl_attrs d) "rewrite_ignore" then
    [ "#[allow(unused)]";
      "impl Rewrite for " +:+ decl_name d +:+ " {";
      "  fn rewrite(old: &Self, new: &Self, mut rcx: RewriteCtxtRef) -> bool {";
      "    // Rewrite mode: ignore";
      "    true";
      "  }";
      "}" ]
  else
    [ "#[allow(unused)]";
      "impl Rewrite for " +:+ decl_name d +:+ " {";
      "  fn rewrite(old: &Self, new: &Self, mut rcx: RewriteCtxtRef) -> bool {" ]
    ++ yield_if (has_field d "id")
         ("    trace!(" +:+ dq +:+ "{:?}: rewrite: begin (" +:+ decl_name d
            +:+ ")" +:+ dq +:+ ", new.id);")
    ++ flat_map (fun strat =>
         [ "    let mark = rcx.mark();" ]
         ++ yield_if (has_field d "id")
              ("    trace!(" +:+ dq +:+ "{:?}: rewrite: try " +:+ strat
                 +:+ dq +:+ ", new.id);")
         ++ [ "    let ok = strategy::" +:+ strat
                +:+ "::rewrite(old, new, rcx.borrow());";
              "    if ok {" ]
         ++ yield_if (has_field d "id")
              ("      trace!(" +:+ dq +:+ "{:?}: rewrite: " +:+ strat
                 +:+ " succeeded" +:+ dq +:+ ", new.id);")
         ++ [ "      return true;";
              "    } else {" ]
         ++ yield_if (has_field d "id")
              ("      trace!(" +:+ dq +:+ "{:?}: rewrite: " +:+ strat
                 +:+ " FAILED" +:+ dq +:+ ", new.id);")
         ++ [ "      rcx.rewind(mark);";
              "    }";
              "" ])
         (get_rewrite_strategies d)
    ++ yield_if (has_field d "id")
         ("    trace!(" +:+ dq +:+ "{:?}: rewrite: ran out of strategies!"
            +:+ dq +:+ ", new.id);")
    ++ [ "    false";
         "  }";
         "}" ].

Definition do_rewrite_impl (d : Decl) : string :=
  linewise (do_rewrite_impl_lines d).

(** *** [Recursive] impls *)

(** The value of [seq_rewrite_mode]: [None] when sequence rewriting is off. *)
Definition seq_rewrite_mode (f : Field) : option string :=
  match field_attrs f !! "seq_rewrite" with
  | Some m => Some m
  | None =>
      if has_attr (field_attrs f) "seq_rewrite_outer_span" then Some ""
      else None
  end.

(** The function [mk_rewrite] chosen for a field. *)
Definition mk_rewrite (f : Field) (old new : string) : string :=
  match seq_rewrite_mode f with
  | None =>
      "Rewrite::rewrite(" +:+ old +:+ ", " +:+ new +:+ ", rcx.borrow())"
  | Some _ =>
      let outer_span_expr :=
        match field_attrs f !! "seq_rewrite_outer_span" with
        | Some outer_span_expr => rewrite_field_expr outer_span_expr "%s2"
        | None => "DUMMY_SP"
        end in
      "rewrite_seq(" +:+ old +:+ ", " +:+ new +:+ ", " +:+ outer_span_expr
        +:+ ", rcx.borrow())"
  end.

Definition recursive_field_lines (contains_expr : bool) (f : Field) : list string :=
  if has_attr (field_attrs f) "rewrite_ignore" then []
  else
    [ "    ({" ]
    ++ (if has_attr (field_attrs f) "prec_first" then
          [ "      let old = rcx.replace_expr_prec("
              +:+ field_prec_expr f true "1" +:+ ");";
            "      let ok = Rewrite::rewrite(&" +:+ field_name f +:+ "1[0], &"
              +:+ field_name f +:+ "2[0], rcx.borrow());";
            "      rcx.replace_expr_prec(" +:+ field_prec_expr f false "1" +:+ ");";
            "      let ok = ok && "
              +:+ mk_rewrite f ("&" +:+ field_name f +:+ "1[1..]")
                               ("&" +:+ field_name f +:+ "2[1..]") +:+ ";";
            "      rcx.replace_expr_prec(old);";
            "      ok" ]
        else
          yield_if contains_expr
            ("      let old = rcx.replace_expr_prec("
               +:+ field_prec_expr f false "1" +:+ ");")
          ++ [ "      let ok = "
                 +:+ mk_rewrite f (field_name f +:+ "1") (field_name f +:+ "2")
                 +:+ ";" ]
          ++ yield_if contains_expr "      rcx.replace_expr_prec(old);"
          ++ [ "      ok" ])
    ++ [ "    }) &&" ].

Definition do_recursive_body_lines (se : Decl) (target1 target2 : string)
    : list string :=
  let contains_expr := has_attr (decl_attrs se) "prec_contains_expr" in
  [ "match (" +:+ target1 +:+ ", " +:+ target2 +:+ ") {" ]
  ++ flat_map (fun '(v, path) =>
       [ "  (&" +:+ struct_pattern v path "1" +:+ ",";
         "   &" +:+ struct_pattern v path "2" +:+ ") => {" ]
       ++ flat_map (recursive_field_lines contains_expr) (variant_fields v)
       ++ [ "    true";
            "  }" ])
       (variants_paths se)
  ++ [ "  (_, _) => false,";
       "}" ].

Definition do_recursive_body (se : Decl) (target1 target2 : string) : string :=
  linewise (do_recursive_body_lines se target1 target2).

Definition do_recursive_impl_lines (d : Decl) : list string :=
  (if has_attr (decl_attrs d) "rewrite_ignore" then
     [ "#[allow(unused)]";
       "impl Recursive for " +:+ decl_name d +:+ " {";
       "  fn recursive(old: &Self, new: &Self, mut rcx: RewriteCtxtRef) -> bool {";
       "    true";
       "  }";
       "}" ]
   else [])
  ++ [ "#[allow(unused)]";
       "impl Recursive for " +:+ decl_name d +:+ " {";
       "  fn recursive(old: &Self, new: &Self, mut rcx: RewriteCtxtRef) -> bool {";
       indent (do_recursive_body d "old" "new") "    ";
       "  }";
       "}" ].

Definition do_recursive_impl (d : Decl) : string :=
  linewise (do_recursive_impl_lines d).

(** *** [RecoverChildren] impls *)

Definition recover_field_lines (contains_expr : bool) (f : Field) : list string :=
  if has_attr (field_attrs f) "rewrite_ignore" then []
  else if has_attr (field_attrs f) "prec_first" then
    [ "    let old = rcx.replace_expr_prec("
        +:+ field_prec_expr f true "_n" +:+ ");";
      "    RecoverChildren::recover_node_and_children(&" +:+ field_name f
        +:+ "_r[0], &" +:+ field_name f +:+ "_n[0], rcx.borrow());";
      "    rcx.replace_expr_prec(" +:+ field_prec_expr f false "_n" +:+ ");";
      "    RecoverChildren::recover_node_and_children(&" +:+ field_name f
        +:+ "_r[1..], &" +:+ field_name f +:+ "_n[1..], rcx.borrow());";
      "    rcx.replace_expr_prec(old);" ]
  else
    yield_if contains_expr
      ("    let old = rcx.replace_expr_prec("
         +:+ field_prec_expr f false "_n" +:+ ");")
    ++ [ "    RecoverChildren::recover_node_and_children(" +:+ field_name f
           +:+ "_r, " +:+ field_name f +:+ "_n, rcx.borrow());" ]
    ++ yield_if contains_expr "    rcx.replace_expr_prec(old);".

Definition do_recover_children_match_lines (d : Decl) : list string :=
  if negb (is_struct_or_enum d) || has_attr (decl_attrs d) "rewrite_ignore" then []
  else
    let contains_expr := has_attr (decl_attrs d) "prec_contains_expr" in
    [ "match (reparsed, new) {" ]
    ++ flat_map (fun '(v, path) =>
         [ "  (&" +:+ struct_pattern v path "_r" +:+ ",";
           "   &" +:+ struct_pattern v path "_n" +:+ ") => {" ]
         ++ flat_map (recover_field_lines contains_expr) (variant_fields v)
         ++ [ "  }," ])
         (variants_paths d)
    ++ [ "  _ => panic!(" +:+ dq +:+ "new and reparsed ASTs don't match"
           +:+ dq +:+ "),";
         "}" ].

Definition do_recover_children_match (d : Decl) : string :=
  linewise (do_recover_children_match_lines d).

Definition do_recover_children_impl_lines (d : Decl) : list string :=
  let impl_recover := type_has_impl d "Recover" in
  [ "#[allow(unused)]";
    "impl RecoverChildren for " +:+ decl_name d +:+ " {";
    "  fn recover_children(reparsed: &Self, new: &Self, mut rcx: RewriteCtxtRef) {";
    indent (do_recover_children_match d) "    ";
    "  }";
    "  fn recover_node_and_children(reparsed: &Self, new: &Self, mut rcx: RewriteCtxtRef) {" ]
  ++ (if impl_recover then
        [ "    if recover(None, reparsed, new, rcx.borrow()) {";
          "      return;";
          "    }" ]
      else [])
  ++ [ "    <Self as RecoverChildren>::recover_children(reparsed, new, rcx);";
       "  }";
       "  fn recover_node_restricted(old_span: Span, reparsed: &Self, new: &Self, mut rcx: RewriteCtxtRef) {" ]
  ++ (if impl_recover then
        [ "    if recover(Some(old_span), reparsed, new, rcx.borrow()) {";
          "      return;";
          "    }" ]
      else [])
  ++ [ "    <Self as RecoverChildren>::recover_children(reparsed, new, rcx);";
       "  }";
       "}" ].

Definition do_recover_children_impl (d : Decl) : string :=
  linewise (do_recover_children_impl_lines d).

End Generators.

(** ** The rewrite context the generated code runs against *)

(** Modelled from the spec: the Rust type [RewriteCtxt] and its methods are
    not among the sources.  Section 4.7 of the specification gives it an edit
    log and one current precedence value, [mark()], [rewind(mark)] (truncate
    the edit log and the precedence to that point) and [replace_expr_prec(v)]
    (set the precedence, return the previous value). *)
Record RewriteCtxt (Edit ExprPrec : Type) := mkCtxt {
  rewrites : list Edit;
  expr_prec : ExprPrec
}.
Arguments mkCtxt {Edit ExprPrec} _ _.
Arguments rewrites {Edit ExprPrec} _.
Arguments expr_prec {Edit ExprPrec} _.

Definition Mark (ExprPrec : Type) : Type := (nat * ExprPrec)%type.

Section CtxtOps.
Context {Edit ExprPrec : Type}.
Implicit Types rcx : RewriteCtxt Edit ExprPrec.

(** Modelled from the spec: [mark()] of section 4.7, an opaque position in
    the edit log together with the precedence at that point. *)
Definition mark rcx : Mark ExprPrec :=
  (length (rewrites rcx), expr_prec rcx).

(** Modelled from the spec: [rewind(mark)] of section 4.7 discards the edits
    and the precedence changes recorded after the mark. *)
Definition rewind (m : Mark ExprPrec) rcx : RewriteCtxt Edit ExprPrec :=
  mkCtxt (take (fst m) (rewrites rcx)) (snd m).

(** Modelled from the spec: [replace_expr_prec(v)] of section 4.7 sets the
    precedence and returns the previous value. *)
Definition replace_expr_prec (v : ExprPrec) rcx
    : ExprPrec * RewriteCtxt Edit ExprPrec :=
  (expr_prec rcx, mkCtxt (rewrites rcx) v).
End CtxtOps.

(** What the emitted text refers to but does not define: the value of a
    precedence expression, the functions it calls (named by the text of the
    call, in the bindings of the enclosing match arm) and whether a pattern
    matches the value of a scrutinee.  A call gets the context by mutable
    borrow and may change it in any way; a unit call may also panic. *)
Class Runtime := {
  Edit : Type;
  ExprPrec : Type;
  eval_prec : string -> ExprPrec;
  call_bool : string -> RewriteCtxt Edit ExprPrec -> bool * RewriteCtxt Edit ExprPrec;
  call_unit : string -> RewriteCtxt Edit ExprPrec -> option (RewriteCtxt Edit ExprPrec);
  pat_matches : string -> string -> bool
}.

(** ** The Rust fragment the generators emit *)

Inductive tail := TlTrue | TlFalse | TlOk.

Inductive cond :=
| CondOk                       (* [ok] *)
| CondCall (call : string).    (* a call returning [bool] *)

(** Statements that fit on one line. *)
Inductive simple :=
| Skip                              (* blank line, comment, [trace!(..);] *)
| LetMark                           (* [let mark = rcx.mark();] *)
| Rewind                            (* [rcx.rewind(mark);] *)
| LetOldReplace (e : string)        (* [let old = rcx.replace_expr_prec(e);] *)
| Replace (e : string)              (* [rcx.replace_expr_prec(e);] *)
| LetOk (call : string)             (* [let ok = call;] *)
| LetOkAnd (call : string)          (* [let ok = ok && call;] *)
| ReturnBool (b : bool)             (* [return true;] *)
| Return                            (* [return;] *)
| Call (call : string).             (* [call;] for a unit call *)

Inductive stmt :=
| Simple (s : simple)
| If (c : cond) (th el : list simple).

(** A bool expression in tail position: [true], [false], [ok], or a chain
    [({ stmts; tail }) && rest]. *)
Inductive expr :=
| ETail (t : tail)
| EBlockAnd (ss : list simple) (t : tail) (rest : expr).

Inductive arm_body :=
| ArmExpr (e : expr)               (* [=> { e }] *)
| ArmStmts (ss : list simple).     (* [=> { stmts },] *)

Record arm := mkArm {
  arm_pat1 : string;
  arm_pat2 : string;
  arm_code : arm_body
}.

Inductive default_arm :=
| DefaultFalse      (* [(_, _) => false,] *)
| DefaultPanic.     (* [_ => panic!(..),] *)

Record match_expr := mkMatch {
  match_scrut1 : string;
  match_scrut2 : string;
  match_arms : list arm;
  match_default : default_arm
}.

(** One emitted line, classified. *)
Inductive token :=
| TSimple (s : simple)
| TIf (c : cond)                 (* [if c {] *)
| TElse                          (* [} else {] *)
| TClose                         (* [}] *)
| TTail (t : tail)
| TBlockOpen                     (* [({] *)
| TBlockCloseAnd                 (* [}) &&] *)
| TMatch (s1 s2 : string)        (* [match (s1, s2) {] *)
| TArmPat1 (p : string)          (* [(&p,] *)
| TArmPat2 (p : string)          (* [&p) => {] *)
| TArmClose                      (* [},] *)
| TDefaultFalse
| TDefaultPanic
| TAttr                          (* [#[allow(unused)]] *)
| TImpl (trait ty : string)      (* [impl trait for ty {] *)
| TFn (sig : string).            (* [fn sig {] *)

(** *** From lines to tokens *)

Fixpoint lstrip (s : string) : string :=
  match s with
  | String " "%char s' => lstrip s'
  | _ => s
  end.

(** Splits at the first occurrence of [", "]. *)
Fixpoint split_comma_space (s : string) : option (string * string) :=
  match s with
  | String ","%char (String " "%char r) => Some (EmptyString, r)
  | String c s' =>
      match split_comma_space s' with
      | Some (a, b) => Some (String c a, b)
      | None => None
      end
  | EmptyString => None
  end.

(** Splits at the first occurrence of [" for "]. *)
Fixpoint split_for (s : string) : option (string * string) :=
  match strip_prefix " for " s with
  | Some r => Some (EmptyString, r)
  | None =>
      match s with
      | String c s' =>
          match split_for s' with
          | Some (a, b) => Some (String c a, b)
          | None => None
          end
      | EmptyString => None
      end
  end.

Definition starts_with (p s : string) : bool :=
  match strip_prefix p s with Some _ => true | None => false end.

Definition classify (line : string) : option token :=
  let l := lstrip line in
  if String.eqb l "" then Some (TSimple Skip)
  else if starts_with "//" l then Some (TSimple Skip)
  else if starts_with "trace!(" l then Some (TSimple Skip)
  else if String.eqb l "#[allow(unused)]" then Some TAttr
  else if String.eqb l "let mark = rcx.mark();" then Some (TSimple LetMark)
  else if String.eqb l "rcx.rewind(mark);" then Some (TSimple Rewind)
  else if String.eqb l "return true;" then Some (TSimple (ReturnBool true))
  else if String.eqb l "return false;" then Some (TSimple (ReturnBool false))
  else if String.eqb l "return;" then Some (TSimple Return)
  else if String.eqb l "true" then Some (TTail TlTrue)
  else if String.eqb l "false" then Some (TTail TlFalse)
  else if String.eqb l "ok" then Some (TTail TlOk)
  else if String.eqb l "if ok {" then Some (TIf CondOk)
  else if String.eqb l "} else {" then Some TElse
  else if String.eqb l "}" then Some TClose
  else if String.eqb l "}," then Some TArmClose
  else if String.eqb l "({" then Some TBlockOpen
  else if String.eqb l "}) &&" then Some TBlockCloseAnd
  else if String.eqb l "(_, _) => false," then Some TDefaultFalse
  else if starts_with "_ => panic!(" l then Some TDefaultPanic
  else
  match between "let old = rcx.replace_expr_prec(" ");" l with
  | Some e => Some (TSimple (LetOldReplace e))
  | None =>
  match between "rcx.replace_expr_prec(" ");" l with
  | Some e => Some (TSimple (Replace e))
  | None =>
  match between "let ok = ok && " ";" l with
  | Some c => Some (TSimple (LetOkAnd c))
  | None =>
  match between "let ok = " ";" l with
  | Some c => Some (TSimple (LetOk c))
  | None =>
  match between "if " " {" l with
  | Some c => Some (TIf (CondCall c))
  | None =>
  match between "match (" ") {" l with
  | Some s =>
      match split_comma_space s with
      | Some (s1, s2) => Some (TMatch s1 s2)
      | None => None
      end
  | None =>
  match between "(&" "," l with
  | Some p => Some (TArmPat1 p)
  | None =>
  match between "&" ") => {" l with
  | Some p => Some (TArmPat2 p)
  | None =>
  match between "impl " " {" l with
  | Some s =>
      match split_for s with
      | Some (tr, ty) => Some (TImpl tr ty)
      | None => None
      end
  | None =>
  match between "fn " " {" l with
  | Some s => Some (TFn s)
  | None =>
  if starts_with "RecoverChildren::recover_node_and_children(" l
     || starts_with "<Self as RecoverChildren>::recover_children(" l
  then match strip_suffix ";" l with
       | Some c => Some (TSimple (Call c))
       | None => None
       end
  else None
  end end end end end end end end end end.

Fixpoint tokenize (lines : list string) : option (list token) :=
  match lines with
  | [] => Some []
  | l :: ls =>
      match classify l, tokenize ls with
      | Some t, Some ts => Some (t :: ts)
      | _, _ => None
      end
  end.

(** *** From tokens to syntax *)

Inductive if_state :=
| PTop
| PThen (c : cond) (th : list simple)
| PElse (c : cond) (th el : list simple).

(** The statements of a function body, with the tail expression when the last
    line is one.  An [if] holds one-line statements only. *)
Fixpoint parse_stmts (st : if_state) (acc : list stmt) (ts : list token)
    : option (list stmt * option tail) :=
  match ts with
  | [] => match st with PTop => Some (acc, None) | _ => None end
  | t :: ts' =>
      match st, t with
      | PTop, TSimple s => parse_stmts PTop (acc ++ [Simple s]) ts'
      | PTop, TIf c => parse_stmts (PThen c []) acc ts'
      | PTop, TTail e => match ts' with [] => Some (acc, Some e) | _ => None end
      | PThen c th, TSimple s => parse_stmts (PThen c (th ++ [s])) acc ts'
      | PThen c th, TElse => parse_stmts (PElse c th []) acc ts'
      | PThen c th, TClose => parse_stmts PTop (acc ++ [If c th []]) ts'
      | PElse c th el, TSimple s => parse_stmts (PElse c th (el ++ [s])) acc ts'
      | PElse c th el, TClose => parse_stmts PTop (acc ++ [If c th el]) ts'
      | _, _ => None
      end
  end.

Fixpoint unsnoc {A : Type} (l : list A) : option (list A * A) :=
  match l with
  | [] => None
  | x :: l' =>
      match unsnoc l' with
      | None => Some ([], x)
      | Some (m, y) => Some (x :: m, y)
      end
  end.

(** A function item: [fn sig {], the body, [}]. *)
Record fn_item := mkFn {
  fn_sig : string;
  fn_stmts : list stmt;
  fn_tail : option tail
}.

Definition parse_fn (ts : list token) : option fn_item :=
  match ts with
  | TFn sig :: rest =>
      match unsnoc rest with
      | Some (body, TClose) =>
          match parse_stmts PTop [] body with
          | Some (ss, t) => Some (mkFn sig ss t)
          | None => None
          end
      | _ => None
      end
  | _ => None
  end.

(** An impl with one function: the attribute line, [impl trait for ty {], the
    function, [}]. *)
Definition parse_impl1 (lines : list string) : option (string * string * fn_item) :=
  match tokenize lines with
  | Some (TAttr :: TImpl tr ty :: rest) =>
      match unsnoc rest with
      | Some (fn_tokens, TClose) =>
          match parse_fn fn_tokens with
          | Some f => Some (tr, ty, f)
          | None => None
          end
      | _ => None
      end
  | _ => None
  end.

Definition blocks_expr (blocks : list (list simple * tail)) (t : tail) : expr :=
  fold_right (fun '(ss, t') rest => EBlockAnd ss t' rest) (ETail t) blocks.

Inductive match_state :=
| MArms                                   (* between arms *)
| MPat (p1 : string)                      (* after [(&p1,] *)
| MBody (p1 p2 : string) (ss : list simple)   (* after [&p2) => {] *)
| MBlock (p1 p2 : string) (blocks : list (list simple * tail)) (ss : list simple)
| MBlockTail (p1 p2 : string) (blocks : list (list simple * tail))
    (ss : list simple) (t : tail)         (* after the tail of a block *)
| MChain (p1 p2 : string) (blocks : list (list simple * tail))   (* after [}) &&] *)
| MArmTail (p1 p2 : string) (blocks : list (list simple * tail)) (t : tail)
| MDefault (d : default_arm)              (* after the catch-all arm *)
| MDone.

Fixpoint parse_arms (st : match_state) (arms : list arm) (ts : list token)
    : option (list arm * default_arm) :=
  match ts with
  | [] => None
  | t :: ts' =>
      match st, t with
      | MArms, TArmPat1 p1 => parse_arms (MPat p1) arms ts'
      | MArms, TDefaultFalse => parse_arms (MDefault DefaultFalse) arms ts'
      | MArms, TDefaultPanic => parse_arms (MDefault DefaultPanic) arms ts'
      | MPat p1, TArmPat2 p2 => parse_arms (MBody p1 p2 []) arms ts'
      | MBody p1 p2 ss, TSimple s => parse_arms (MBody p1 p2 (ss ++ [s])) arms ts'
      | MBody p1 p2 ss, TArmClose =>
          parse_arms MArms (arms ++ [mkArm p1 p2 (ArmStmts ss)]) ts'
      | MBody p1 p2 ss, TBlockOpen =>
          match ss with
          | [] => parse_arms (MBlock p1 p2 [] []) arms ts'
          | _ => None
          end
      | MBody p1 p2 ss, TTail e =>
          match ss with
          | [] => parse_arms (MArmTail p1 p2 [] e) arms ts'
          | _ => None
          end
      | MBlock p1 p2 bs ss, TSimple s => parse_arms (MBlock p1 p2 bs (ss ++ [s])) arms ts'
      | MBlock p1 p2 bs ss, TTail e => parse_arms (MBlockTail p1 p2 bs ss e) arms ts'
      | MBlockTail p1 p2 bs ss e, TBlockCloseAnd =>
          parse_arms (MChain p1 p2 (bs ++ [(ss, e)])) arms ts'
      | MChain p1 p2 bs, TBlockOpen => parse_arms (MBlock p1 p2 bs []) arms ts'
      | MChain p1 p2 bs, TTail e => parse_arms (MArmTail p1 p2 bs e) arms ts'
      | MArmTail p1 p2 bs e, TClose =>
          parse_arms MArms (arms ++ [mkArm p1 p2 (ArmExpr (blocks_expr bs e))]) ts'
      | MDefault d, TClose =>
          match ts' with [] => Some (arms, d) | _ => None end
      | _, _ => None
      end
  end.

(** A match expression: [match (s1, s2) {], the arms, the catch-all arm, [}]. *)
Definition parse_match (lines : list string) : option match_expr :=
  match tokenize lines with
  | Some (TMatch s1 s2 :: rest) =>
      match parse_arms MArms [] rest with
      | Some (arms, d) => Some (mkMatch s1 s2 arms d)
      | None => None
      end
  | _ => None
  end.

(** *** Meaning *)

Section Exec.
Context `{R : Runtime}.

Local Abbreviation ctxt := (RewriteCtxt Edit ExprPrec).

(** The local variables the emitted code binds. *)
Record locals := mkLocals {
  l_mark : option (Mark ExprPrec);
  l_ok : option bool;
  l_old : option ExprPrec
}.

Definition no_locals : locals := mkLocals None None None.

Inductive outcome (A : Type) :=
| Normal (a : A) (c : ctxt)               (* ran to the end *)
| Returned (v : option bool) (c : ctxt)   (* left the function by [return] *)
| Panic
| Stuck.                                  (* uses a variable that is not bound *)
Arguments Normal {A} _ _.
Arguments Returned {A} _ _.
Arguments Panic {A}.
Arguments Stuck {A}.

(** The value of a precedence argument: the variable [old], or an
    expression over the arm's bindings. *)
Definition prec_value (l : locals) (e : string) : option ExprPrec :=
  if String.eqb e "old" then l_old l else Some (eval_prec e).

Definition exec_simple (l : locals) (c : ctxt) (s : simple) : outcome locals :=
  match s with
  | Skip => Normal l c
  | LetMark => Normal (mkLocals (Some (mark c)) (l_ok l) (l_old l)) c
  | Rewind =>
      match l_mark l with
      | Some m => Normal l (rewind m c)
      | None => Stuck
      end
  | LetOldReplace e =>
      match prec_value l e with
      | Some v =>
          let '(prev, c') := replace_expr_prec v c in
          Normal (mkLocals (l_mark l) (l_ok l) (Some prev)) c'
      | None => Stuck
      end
  | Replace e =>
      match prec_value l e with
      | Some v => Normal l (snd (replace_expr_prec v c))
      | None => Stuck
      end
  | LetOk call =>
      let '(b, c') := call_bool call c in
      Normal (mkLocals (l_mark l) (Some b) (l_old l)) c'
  | LetOkAnd call =>
      match l_ok l with
      | Some true =>
          let '(b, c') := call_bool call c in
          Normal (mkLocals (l_mark l) (Some b) (l_old l)) c'
      | Some false => Normal l c
      | None => Stuck
      end
  | ReturnBool b => Returned (Some b) c
  | Return => Returned None c
  | Call call =>
      match call_unit call c with
      | Some c' => Normal l c'
      | None => Panic
      end
  end.

Fixpoint exec_simples (l : locals) (c : ctxt) (ss : list simple) : outcome locals :=
  match ss with
  | [] => Normal l c
  | s :: ss' =>
      match exec_simple l c s with
      | Normal l' c' => exec_simples l' c' ss'
      | o => o
      end
  end.

(** The bindings of a branch end with it. *)
Definition exec_stmt (l : locals) (c : ctxt) (s : stmt) : outcome locals :=
  match s with
  | Simple s => exec_simple l c s
  | If cnd th el =>
      let run b c' :=
        match exec_simples l c' (if b : bool then th else el) with
        | Normal _ c'' => Normal l c''
        | o => o
        end in
      match cnd with
      | CondOk =>
          match l_ok l with
          | Some b => run b c
          | None => Stuck
          end
      | CondCall call => let '(b, c') := call_bool call c in run b c'
      end
  end.

Fixpoint exec_stmts (l : locals) (c : ctxt) (ss : list stmt) : outcome locals :=
  match ss with
  | [] => Normal l c
  | s :: ss' =>
      match exec_stmt l c s with
      | Normal l' c' => exec_stmts l' c' ss'
      | o => o
      end
  end.

Definition tail_value (l : locals) (t : tail) : option bool :=
  match t with
  | TlTrue => Some true
  | TlFalse => Some false
  | TlOk => l_ok l
  end.

(** [({ ss; t }) && rest]: the block's bindings end with it, and [rest] is
    not evaluated when the block is false. *)
Fixpoint eval_expr (l : locals) (c : ctxt) (e : expr) : outcome bool :=
  match e with
  | ETail t =>
      match tail_value l t with
      | Some b => Normal b c
      | None => Stuck
      end
  | EBlockAnd ss t rest =>
      match exec_simples l c ss with
      | Normal l' c' =>
          match tail_value l' t with
          | Some true => eval_expr l c' rest
          | Some false => Normal false c'
          | None => Stuck
          end
      | Returned v c' => Returned v c'
      | Panic => Panic
      | Stuck => Stuck
      end
  end.

(** The value of a function body or of a match: [Some b], or [None] for
    the unit value. *)
Definition exec_arm (l : locals) (c : ctxt) (b : arm_body) : outcome (option bool) :=
  match b with
  | ArmExpr e =>
      match eval_expr l c e with
      | Normal b c' => Normal (Some b) c'
      | Returned v c' => Returned v c'
      | Panic => Panic
      | Stuck => Stuck
      end
  | ArmStmts ss =>
      match exec_simples l c ss with
      | Normal _ c' => Normal None c'
      | Returned v c' => Returned v c'
      | Panic => Panic
      | Stuck => Stuck
      end
  end.

Definition arm_selected (m : match_expr) (a : arm) : bool :=
  pat_matches (arm_pat1 a) (match_scrut1 m)
  && pat_matches (arm_pat2 a) (match_scrut2 m).

(** The first arm whose two patterns match is taken. *)
Definition exec_match (l : locals) (c : ctxt) (m : match_expr) : outcome (option bool) :=
  match List.find (arm_selected m) (match_arms m) with
  | Some a => exec_arm l c (arm_code a)
  | None =>
      match match_default m with
      | DefaultFalse => Normal (Some false) c
      | DefaultPanic => Panic
      end
  end.

(** The result of calling a function: its value and the context it leaves,
    a panic, or no meaning. *)
Inductive result :=
| Done (v : option bool) (c : ctxt)
| Panicked
| Ill.

Definition finish (o : outcome (option bool)) : result :=
  match o with
  | Normal v c => Done v c
  | Returned v c => Done v c
  | Panic => Panicked
  | Stuck => Ill
  end.

Definition run_fn (f : fn_item) (c : ctxt) : result :=
  match exec_stmts no_locals c (fn_stmts f) with
  | Normal l c' =>
      match fn_tail f with
      | Some t =>
          match tail_value l t with
          | Some b => Done (Some b) c'
          | None => Ill
          end
      | None => Done None c'
      end
  | Returned v c' => Done v c'
  | Panic => Panicked
  | Stuck => Ill
  end.

(** Running emitted text: [None] when the lines are not in the fragment. *)
Definition run_impl1 (lines : list string) (c : ctxt) : option result :=
  match parse_impl1 lines with
  | Some (_, _, f) => Some (run_fn f c)
  | None => None
  end.

Definition run_match (lines : list string) (c : ctxt) : option result :=
  match parse_match lines with
  | Some m => Some (finish (exec_match no_locals c m))
  | None => None
  end.

End Exec.

Arguments Normal {R A} _ _.
Arguments Returned {R A} _ _.
Arguments Panic {R A}.
Arguments Stuck {R A}.

(** ** The claims' wording, as definitions to compare the generator with *)

(** The extra strategies and the availability of [print], as the generator
    reads them. *)
Definition extra_strategies (d : Decl) : list string :=
  match decl_attrs d !! "rewrite_extra_strategies" with
  | Some extra => split_comma extra
  | None => []
  end.

Definition print_available (d : Decl) : bool :=
  type_has_impl d "PrintParse" && type_has_impl d "RecoverChildren"
  && type_has_impl d "Splice".

(** The default strategy list in the wording of the specification: [equal]
    first, then [recursive] when there is a [Recursive] impl, then the extras,
    then [print]. *)
Definition spec_default_strategies (d : Decl) : list string :=
  ["equal"]
  ++ (if type_has_impl d "Recursive" then ["recursive"] else [])
  ++ extra_strategies d
  ++ (if print_available d then ["print"] else []).





Definition head_nonword (s : string) : bool :=
  match s with
  | EmptyString => true
  | String c _ => negb (is_word c)
  end.







(** ** Concrete declarations

    [Sample.util] is one instance of the helpers the generator is parametric
    in, so that it can be run on the declarations below. *)

Module Sample.

Definition join_lines (ls : list string) : string :=
  String.concat (String nl "") ls.

Fixpoint split_lines (cur s : string) : list string :=
  match s with
  | EmptyString => [cur]
  | String c s' =>
      if Ascii.eqb c nl then cur :: split_lines "" s'
      else split_lines (cur +:+ String c "") s'
  end.

Definition indent_lines (text prefix : string) : string :=
  join_lines (map (fun l => if String.eqb (lstrip l) "" then l else prefix +:+ l)
                  (split_lines "" text)).

Definition pattern (v : Variant) (path sfx : string) : string :=
  path +:+ " { "
    +:+ String.concat ", "
          (map (fun f => field_name f +:+ ": ref " +:+ field_name f +:+ sfx)
               (variant_fields v))
    +:+ " }".

Definition paths (d : Decl) : list (Variant * string) :=
  match decl_kind d with
  | Struct => map (fun v => (v, decl_name d)) (decl_variants d)
  | Enum => map (fun v => (v, decl_name d +:+ "::" +:+ variant_name v)) (decl_variants d)
  | Flag => []
  end.

Definition field_named (d : Decl) (n : string) : bool :=
  match decl_kind d with
  | Struct =>
      existsb (fun v => existsb (fun f => String.eqb (field_name f) n) (variant_fields v))
              (decl_variants d)
  | _ => false
  end.

#[export] Instance util : Util := {|
  linewise := join_lines;
  indent := indent_lines;
  has_field := field_named;
  variants_paths := paths;
  struct_pattern := pattern
|}.

(** A struct without attributes. *)
Definition lit : Decl :=
  mkDecl Struct "Lit" ∅ [mkVariant "Lit" [mkField "node" ∅; mkField "span" ∅]].

(** A flag type. *)
Definition mutability : Decl := mkDecl Flag "Mutability" ∅ [].

(** A struct whose [Recursive] impl is skipped: no strategy applies. *)
Definition token_tree : Decl :=
  mkDecl Struct "TokenTree" (list_to_map [("rewrite_skip", "Recursive")])
         [mkVariant "TokenTree" [mkField "tts" ∅]].

(** A type with an explicit strategy list. *)
Definition ident : Decl :=
  mkDecl Struct "Ident"
         (list_to_map [("rewrite_strategies", "equal,print"); ("rewrite_print", "")])
         [mkVariant "Ident" [mkField "name" ∅]].


(** An expression type: operands of a binary operator, a call whose first
    argument has its own precedence, a block with a statement sequence. *)
Definition expr_kind : Decl :=
  mkDecl Enum "ExprKind"
    (list_to_map [("prec_contains_expr", ""); ("rewrite_print_recover", "")])
    [ mkVariant "Binary"
        [ mkField "op" (list_to_map [("rewrite_ignore", "")]);
          mkField "a" (list_to_map [("prec_left_of_binop", "op")]);
          mkField "b" (list_to_map [("prec_right_of_binop", "op")]) ];
      mkVariant "MethodCall"
        [ mkField "seg" ∅;
          mkField "args" (list_to_map [("prec_first", "POSTFIX")]) ];
      mkVariant "Block"
        [ mkField "stmts"
            (list_to_map [("seq_rewrite_outer_span", "mk_sp(self.lo, self.span.hi())")]) ] ].

(** A sequence field with its own leading precedence. *)
Definition seq_first : Field :=
  mkField "items" (list_to_map [("prec_first", "POSTFIX"); ("seq_rewrite", "")]).

(** An ignored enum. *)
Definition attr_style : Decl :=
  mkDecl Enum "AttrStyle" (list_to_map [("rewrite_ignore", "")])
         [mkVariant "Outer" []; mkVariant "Inner" []].

End Sample.

(** ** Reference behaviour of the generated code *)

(** The call the generated [rewrite] makes for a strategy. *)
Definition strategy_call (strat : string) : string :=
  "strategy::" +:+ strat +:+ "::rewrite(old, new, rcx.borrow())".

Section Reference.
Context `{R : Runtime}.

Local Abbreviation ctxt := (RewriteCtxt Edit ExprPrec).

(** Trying strategies in order: take a mark, run the strategy, keep its edits
    and stop when it succeeds, else rewind to the mark and go on; fail when
    none is left. *)
Fixpoint try_strategies (strats : list string) (rcx : ctxt) : bool * ctxt :=
  match strats with
  | [] => (false, rcx)
  | strat :: rest =>
      let m := mark rcx in
      let '(ok, rcx') := call_bool (strategy_call strat) rcx in
      if ok then (true, rcx') else try_strategies rest (rewind m rcx')
  end.

End Reference.

(** ** The syntax the generators emit, per generator *)

Definition skip_tokens (b : bool) : list token := if b then [TSimple Skip] else [].
Definition skips (b : bool) : list simple := if b then [Skip] else [].

Definition strategy_tokens (hf : bool) (strat : string) : list token :=
  [TSimple LetMark] ++ skip_tokens hf
  ++ [TSimple (LetOk (strategy_call strat)); TIf CondOk] ++ skip_tokens hf
  ++ [TSimple (ReturnBool true); TElse] ++ skip_tokens hf
  ++ [TSimple Rewind; TClose; TSimple Skip].

Definition strategy_stmts (hf : bool) (strat : string) : list stmt :=
  [Simple LetMark] ++ map Simple (skips hf)
  ++ [Simple (LetOk (strategy_call strat));
      If CondOk (skips hf ++ [ReturnBool true]) (skips hf ++ [Rewind]);
      Simple Skip].

Definition rewrite_sig : string :=
  "rewrite(old: &Self, new: &Self, mut rcx: RewriteCtxtRef) -> bool".

Definition rewrite_fn (hf : bool) (strats : list string) : fn_item :=
  mkFn rewrite_sig
       (map Simple (skips hf) ++ flat_map (strategy_stmts hf) strats
          ++ map Simple (skips hf))
       (Some TlFalse).

(** A runtime to run emitted code on: an edit is the text of the call that
    recorded it, a precedence value the text of its expression; the calls
    listed in [failing] return false and the unit calls listed in [panicking]
    panic; the scrutinees [old] and [reparsed] hold a value of the variant
    [tag1], the scrutinee [new] one of the variant [tag2]. *)
Definition sample_runtime (tag1 tag2 : string) (failing panicking : list string)
    : Runtime := {|
  Edit := string;
  ExprPrec := string;
  eval_prec := fun e => e;
  call_bool := fun call rcx =>
    (negb (str_in call failing), mkCtxt (rewrites rcx ++ [call]) (expr_prec rcx));
  call_unit := fun call rcx =>
    if str_in call panicking then None
    else Some (mkCtxt (rewrites rcx ++ [call]) (expr_prec rcx));
  pat_matches := fun p s =>
    starts_with ((if String.eqb s "new" then tag2 else tag1) +:+ " {") p
|}.

(** *** The [RecoverChildren] impl *)

(** The impl as emitted: attribute, impl header, then three functions; the
    body of the first one is a single yielded item (the indented text of the
    match over the variants), kept as text. *)
Record recover_children_impl := mkRecoverImpl {
  rc_type : string;
  rc_children_sig : string;
  rc_children_body : string;
  rc_node_and_children : fn_item;
  rc_node_restricted : fn_item
}.

(** Cuts [fn sig { body }] off the front of a token list. *)
Fixpoint take_fn_body (ts : list token) : option (list token * list token) :=
  match ts with
  | [] => None
  | TFn _ :: _ => None
  | TClose :: (TFn _ :: _) as rest => Some ([], rest)
  | [TClose; TClose] => Some ([], [TClose])
  | t :: ts' =>
      match take_fn_body ts' with
      | Some (body, rest) => Some (t :: body, rest)
      | None => None
      end
  end.

Definition take_fn (ts : list token) : option (fn_item * list token) :=
  match ts with
  | TFn sig :: ts' =>
      match take_fn_body ts' with
      | Some (body, rest) =>
          match parse_stmts PTop [] body with
          | Some (ss, t) => Some (mkFn sig ss t, rest)
          | None => None
          end
      | None => None
      end
  | _ => None
  end.

Definition parse_recover_children_impl (lines : list string)
    : option recover_children_impl :=
  match lines with
  | l_attr :: l_impl :: l_fn :: body :: l_close :: rest =>
      match tokenize [l_attr; l_impl; l_fn; l_close], tokenize rest with
      | Some [TAttr; TImpl "RecoverChildren" ty; TFn sig; TClose], Some ts =>
          match take_fn ts with
          | Some (f2, ts2) =>
              match take_fn ts2 with
              | Some (f3, [TClose]) => Some (mkRecoverImpl ty sig body f2 f3)
              | _ => None
              end
          | None => None
          end
      | _, _ => None
      end
  | _ => None
  end.

Definition recover_children_sig : string :=
  "recover_children(reparsed: &Self, new: &Self, mut rcx: RewriteCtxtRef)".
Definition recover_node_and_children_sig : string :=
  "recover_node_and_children(reparsed: &Self, new: &Self, mut rcx: RewriteCtxtRef)".
Definition recover_node_restricted_sig : string :=
  "recover_node_restricted(old_span: Span, reparsed: &Self, new: &Self, mut rcx: RewriteCtxtRef)".

(** The call of the recovery hook with a span restriction, and the descent
    into the children. *)
Definition recover_hook_call (restriction : string) : string :=
  "recover(" +:+ restriction +:+ ", reparsed, new, rcx.borrow())".
Definition recover_children_call : string :=
  "<Self as RecoverChildren>::recover_children(reparsed, new, rcx)".

Definition recover_fn (sig restriction : string) (impl_recover : bool) : fn_item :=
  mkFn sig
       ((if impl_recover
         then [If (CondCall (recover_hook_call restriction)) [Return] []]
         else [])
        ++ [Simple (Call recover_children_call)])
       None.

Section RecoverReference.
Context `{R : Runtime}.

Local Abbreviation ctxt := (RewriteCtxt Edit ExprPrec).

Definition descend_into_children (rcx : ctxt) : result :=
  match call_unit recover_children_call rcx with
  | Some rcx' => Done None rcx'
  | None => Panicked
  end.

(** The recovery step at a node: the hook, when the kind has one, is called
    with the restriction, and when it returns true the descent stops; else
    recovery goes on into the children. *)
Definition recover_node (impl_recover : bool) (restriction : string) (rcx : ctxt)
    : result :=
  if impl_recover then
    let '(salvaged, rcx') := call_bool (recover_hook_call restriction) rcx in
    if salvaged then Done None rcx' else descend_into_children rcx'
  else descend_into_children rcx.

End RecoverReference.

(** *** The matches over the variants *)

Definition kept_fields (v : Variant) : list Field :=
  List.filter (fun f => negb (has_attr (field_attrs f) "rewrite_ignore"))
              (variant_fields v).



(** The statements emitted for a field in a [RecoverChildren] impl. *)
Definition recover_field_code (contains_expr : bool) (f : Field) : list simple :=
  if has_attr (field_attrs f) "prec_first" then
    [ LetOldReplace (field_prec_expr f true "_n");
      Call ("RecoverChildren::recover_node_and_children(&" +:+ field_name f
              +:+ "_r[0], &" +:+ field_name f +:+ "_n[0], rcx.borrow())");
      Replace (field_prec_expr f false "_n");
      Call ("RecoverChildren::recover_node_and_children(&" +:+ field_name f
              +:+ "_r[1..], &" +:+ field_name f +:+ "_n[1..], rcx.borrow())");
      Replace "old" ]
  else
    (if contains_expr then [LetOldReplace (field_prec_expr f false "_n")] else [])
    ++ [Call ("RecoverChildren::recover_node_and_children(" +:+ field_name f
                +:+ "_r, " +:+ field_name f +:+ "_n, rcx.borrow())")]
    ++ (if contains_expr then [Replace "old"] else []).

Definition recover_field_tokens (contains_expr : bool) (f : Field) : list token :=
  if has_attr (field_attrs f) "rewrite_ignore" then []
  else map TSimple (recover_field_code contains_expr f).

Section MatchSyntax.
Context `{U : Util}.



Definition recover_arm (contains_expr : bool) (vp : Variant * string) : arm :=
  mkArm (struct_pattern (fst vp) (snd vp) "_r")
        (struct_pattern (fst vp) (snd vp) "_n")
        (ArmStmts (flat_map (recover_field_code contains_expr)
                            (kept_fields (fst vp)))).

Definition recover_match (d : Decl) : match_expr :=
  mkMatch "reparsed" "new"
          (map (recover_arm (has_attr (decl_attrs d) "prec_contains_expr"))
               (variants_paths d))
          DefaultPanic.

End MatchSyntax.

Section MatchTokens.
Context `{U : Util}.


Definition recover_arm_tokens (contains_expr : bool) (vp : Variant * string)
    : list token :=
  [ TArmPat1 (struct_pattern (fst vp) (snd vp) "_r");
    TArmPat2 (struct_pattern (fst vp) (snd vp) "_n") ]
  ++ flat_map (recover_field_tokens contains_expr) (variant_fields (fst vp))
  ++ [TArmClose].

End MatchTokens.

(** *** Reference behaviour of the matches *)






Section MatchReference.
Context `{R : Runtime}.

Local Abbreviation ctxt := (RewriteCtxt Edit ExprPrec).






(** Running the body of [recover_children]: the lines of the match, or
    nothing at all. *)
Definition run_recover_children (lines : list string) (rcx : ctxt) : option result :=
  match lines with
  | [] => Some (Done None rcx)
  | _ => run_match lines rcx
  end.

End MatchReference.

(** Runtimes for [Sample.expr_kind]: both trees are method calls and every
    call succeeds; [old] is a binary operation and [new] a block. *)
Definition rt_method_calls : Runtime :=
  sample_runtime "ExprKind::MethodCall" "ExprKind::MethodCall" [] [].
Definition rt_binary_block : Runtime :=
  sample_runtime "ExprKind::Binary" "ExprKind::Block" [] [].

(** A runtime for [Sample.attr_style]: the reparsed tree is [Outer], the new
    one [Inner]. *)
Definition rt_outer_inner : Runtime :=
  sample_runtime "AttrStyle::Outer" "AttrStyle::Inner" [] [].

(** A context with no edits. *)
Definition rcx0 : RewriteCtxt string string := mkCtxt [] "top".



(** * Properties *)

(** ** Strings *)

Lemma strip_prefix_app p r : strip_prefix p (p +:+ r) = Some r.
Proof. induction p as [|a p IH]; simpl; [done|]. by rewrite Ascii.eqb_refl. Qed.

Lemma strip_prefix_Some p : forall s r, strip_prefix p s = Some r -> s = p +:+ r.
Proof.
  induction p as [|a p IH]; simpl; intros s r H; [congruence|].
  destruct s as [|b s]; [done|].
  destruct (Ascii.eqb_spec a b) as [->|]; [|done].
  by rewrite (IH _ _ H).
Qed.

Lemma str_app_assoc a b c : (a +:+ b) +:+ c = a +:+ (b +:+ c).
Proof. induction a; simpl; congruence. Qed.

Lemma str_app_empty_r s : s +:+ "" = s.
Proof. induction s; simpl; congruence. Qed.

Lemma rev_str_acc s : forall acc, rev_str acc s = rev_str "" s +:+ acc.
Proof.
  induction s as [|c s IH]; intros acc; simpl; [done|].
  rewrite IH, (IH (String c "")), str_app_assoc. done.
Qed.

Lemma rev_str_app a b : rev_str "" (a +:+ b) = rev_str "" b +:+ rev_str "" a.
Proof.
  induction a as [|c a IH]; simpl.
  - by rewrite str_app_empty_r.
  - rewrite rev_str_acc, IH, (rev_str_acc a (String c "")), str_app_assoc. done.
Qed.

Lemma rev_str_invol s : rev_str "" (rev_str "" s) = s.
Proof.
  induction s as [|c s IH]; simpl; [done|].
  rewrite (rev_str_acc s (String c "")), rev_str_app, IH. done.
Qed.

Lemma strip_suffix_app x suf : strip_suffix suf (x +:+ suf) = Some x.
Proof.
  unfold strip_suffix. rewrite rev_str_app, strip_prefix_app, rev_str_invol. done.
Qed.

Lemma strip_suffix_Some suf s x : strip_suffix suf s = Some x -> s = x +:+ suf.
Proof.
  unfold strip_suffix.
  destruct (strip_prefix _ _) as [r|] eqn:E; [|done].
  intros [= <-]. apply strip_prefix_Some in E.
  rewrite <- (rev_str_invol s), E, rev_str_app, rev_str_invol. done.
Qed.

Lemma strip_suffix_cons suf c x y :
  strip_suffix suf x = Some y -> strip_suffix suf (String c x) = Some (String c y).
Proof.
  intros H. apply strip_suffix_Some in H. subst x.
  apply (strip_suffix_app (String c y)).
Qed.

Lemma strip_suffix_app_l suf s x y :
  strip_suffix suf x = Some y -> strip_suffix suf (s +:+ x) = Some (s +:+ y).
Proof.
  intros H. apply strip_suffix_Some in H. subst x.
  rewrite <- str_app_assoc. apply strip_suffix_app.
Qed.

Ltac strip_suffix_tac :=
  first [ apply strip_suffix_app
        | reflexivity
        | apply strip_suffix_cons; strip_suffix_tac
        | apply strip_suffix_app_l; strip_suffix_tac ].

(** Rewrites the first [strip_suffix] of the goal whose argument ends with the
    suffix. *)
Ltac rewrite_strip_suffix :=
  match goal with
  | |- context [strip_suffix ?suf ?t] =>
      let H := fresh in
      eassert (H : strip_suffix suf t = Some _) by strip_suffix_tac;
      rewrite H; clear H
  end.

(** ** [split(',')] *)

Lemma split_comma_nonempty s : split_comma s <> [].
Proof.
  induction s as [|c s IH]; simpl; [done|].
  destruct (Ascii.eqb c ","); [done|]. by destruct (split_comma s).
Qed.

Lemma split_comma_join s : String.concat "," (split_comma s) = s.
Proof.
  induction s as [|c s IH]; simpl; [done|].
  destruct (Ascii.eqb_spec c ","%char) as [->|Hc].
  - pose proof (split_comma_nonempty s).
    destruct (split_comma s) as [|w ws] eqn:E; [done|].
    cbn [String.concat]. cbn [String.concat] in IH. rewrite IH. done.
  - pose proof (split_comma_nonempty s).
    destruct (split_comma s) as [|w ws] eqn:E; [done|].
    cbn [String.concat] in *. destruct ws; simpl in *; by rewrite <- IH.
Qed.

Lemma split_comma_no_comma s :
  Forall (fun w => any_char (Ascii.eqb ","%char) w = false) (split_comma s).
Proof.
  induction s as [|c s IH]; simpl.
  - by constructor.
  - destruct (Ascii.eqb_spec c ","%char) as [->|Hc].
    + constructor; [done|exact IH].
    + pose proof (split_comma_nonempty s).
      destruct (split_comma s) as [|w ws]; [done|].
      inversion IH; subst. constructor; [|done].
      simpl. destruct (Ascii.eqb_spec ","%char c); [congruence|done].
Qed.

(** ** Strategy selection *)

Lemma forallb_print d :
  forallb (type_has_impl d) ["PrintParse"; "RecoverChildren"; "Splice"]
  = print_available d.
Proof.
  unfold print_available. cbn [forallb].
  by destruct (type_has_impl d "PrintParse"), (type_has_impl d "RecoverChildren"),
       (type_has_impl d "Splice").
Qed.

(** C1, as amended.  Without a [rewrite_strategies] attribute the strategy
    list is: [equal] when the declaration is a flag, else [recursive] when the
    type has a [Recursive] impl (and neither otherwise); then the configured
    extra strategies; then [print] when the type has [PrintParse],
    [RecoverChildren] and [Splice] impls.  [equal] leads the list of every
    flag, and is absent from the list of a type that is not a flag unless an
    extra strategy names it. *)
Theorem default_strategies (d : Decl) :
  decl_attrs d !! "rewrite_strategies" = None ->
  get_rewrite_strategies d =
    (if is_flag d then ["equal"]
     else if type_has_impl d "Recursive" then ["recursive"] else [])
    ++ extra_strategies d
    ++ (if print_available d then ["print"] else [])
  /\ (is_flag d = true -> head (get_rewrite_strategies d) = Some "equal")
  /\ (is_flag d = false -> ~ In "equal" (extra_strategies d) ->
      ~ In "equal" (get_rewrite_strategies d)).
Proof.
  intros Hnone.
  assert (E : get_rewrite_strategies d =
    (if is_flag d then ["equal"]
     else if type_has_impl d "Recursive" then ["recursive"] else [])
    ++ extra_strategies d
    ++ (if print_available d then ["print"] else [])).
  { unfold get_rewrite_strategies, extra_strategies. rewrite Hnone, forallb_print.
    destruct (is_flag d), (type_has_impl d "Recursive"),
      (decl_attrs d !! "rewrite_extra_strategies"), (print_available d);
      cbn [app]; rewrite ?app_nil_r, <- ?app_assoc; reflexivity. }
  split; [exact E|]. rewrite E. split.
  - intros ->. reflexivity.
  - intros -> Hextra Hin.
    apply in_app_or in Hin as [Hin|Hin].
    { destruct (type_has_impl d "Recursive"); simpl in Hin; [|done].
      destruct Hin as [?|[]]; discriminate. }
    apply in_app_or in Hin as [Hin|Hin]; [done|].
    destruct (print_available d); simpl in Hin; [|done].
    destruct Hin as [?|[]]; discriminate.
Qed.

Lemma default_strategies_witness :
  get_rewrite_strategies Sample.mutability = ["equal"]
  /\ head (get_rewrite_strategies Sample.mutability) = Some "equal".
Proof.
  destruct (default_strategies Sample.mutability eq_refl) as (E & Hhead & _).
  split; [exact E | exact (Hhead eq_refl)].
Defined.

(** C1 as stated fails: a struct without attributes has the strategy list
    [recursive] alone, in which [equal] is neither first nor present, while
    the stated list would start with [equal]. *)
Lemma equal_not_always_first :
  decl_attrs Sample.lit !! "rewrite_strategies" = None
  /\ get_rewrite_strategies Sample.lit = ["recursive"]
  /\ spec_default_strategies Sample.lit = ["equal"; "recursive"]
  /\ get_rewrite_strategies Sample.lit <> spec_default_strategies Sample.lit
  /\ ~ In "equal" (get_rewrite_strategies Sample.lit).
Proof.
  assert (E : get_rewrite_strategies Sample.lit = ["recursive"]) by reflexivity.
  repeat split; try reflexivity.
  - rewrite E. discriminate.
  - rewrite E. intros [?|[]]. discriminate.
Qed.

(** C9.  With a [rewrite_strategies] attribute the strategy list is the
    comma-split value of the attribute, whatever the kind, the other
    attributes and the available impls are: its items joined by commas give
    the attribute back, and no item holds a comma. *)
Theorem strategies_override (d : Decl) (strats_str : string) :
  decl_attrs d !! "rewrite_strategies" = Some strats_str ->
  get_rewrite_strategies d = split_comma strats_str
  /\ String.concat "," (get_rewrite_strategies d) = strats_str
  /\ Forall (fun s => any_char (Ascii.eqb ","%char) s = false)
            (get_rewrite_strategies d).
Proof.
  intros H. unfold get_rewrite_strategies. rewrite H.
  split; [done|]. split; [apply split_comma_join | apply split_comma_no_comma].
Qed.

Lemma strategies_override_witness :
  get_rewrite_strategies Sample.ident = ["equal"; "print"].
Proof.
  exact (proj1 (strategies_override Sample.ident "equal,print" eq_refl)).
Defined.

(** ** Precedence resolution *)



(** ** Lines to tokens *)

Ltac classify_tac :=
  unfold classify; cbn -[strip_suffix];
  repeat (rewrite_strip_suffix; cbn -[strip_suffix]);
  reflexivity.

Lemma classify_impl_rewrite n :
  classify ("impl Rewrite for " +:+ n +:+ " {") = Some (TImpl "Rewrite" n).
Proof.
  classify_tac.
Qed.

Lemma classify_trace x : classify ("    trace!(" +:+ x) = Some (TSimple Skip).
Proof. reflexivity. Qed.

Lemma classify_trace6 x : classify ("      trace!(" +:+ x) = Some (TSimple Skip).
Proof. reflexivity. Qed.

Lemma classify_strategy s :
  classify ("    let ok = strategy::" +:+ s +:+ "::rewrite(old, new, rcx.borrow());")
  = Some (TSimple (LetOk (strategy_call s))).
Proof. classify_tac. Qed.

Lemma tokenize_cons l t ls ts :
  classify l = Some t -> tokenize ls = Some ts -> tokenize (l :: ls) = Some (t :: ts).
Proof. intros H1 H2. cbn [tokenize]. by rewrite H1, H2. Qed.

Lemma tokenize_nil : tokenize [] = Some [].
Proof. reflexivity. Qed.

Lemma tokenize_app a b ta tb :
  tokenize a = Some ta -> tokenize b = Some tb -> tokenize (a ++ b) = Some (ta ++ tb).
Proof.
  revert ta. induction a as [|l a IH]; intros ta Ha Hb.
  - injection Ha as <-. exact Hb.
  - cbn [tokenize app] in *.
    destruct (classify l) as [t|]; [|done].
    destruct (tokenize a) as [ts|]; [|done].
    injection Ha as <-. by rewrite (IH ts eq_refl Hb).
Qed.

Lemma tokenize_flat_map {A} (f : A -> list string) (g : A -> list token) xs :
  (forall x, tokenize (f x) = Some (g x)) ->
  tokenize (flat_map f xs) = Some (flat_map g xs).
Proof.
  intros H. induction xs as [|x xs IH]; [done|].
  cbn [flat_map]. by apply tokenize_app.
Qed.

Lemma tokenize_yield_if b l :
  classify l = Some (TSimple Skip) -> tokenize (yield_if b l) = Some (skip_tokens b).
Proof. intros H. destruct b; cbn [yield_if skip_tokens]; [|done]. by apply tokenize_cons. Qed.

Section RewriteImpl.
Context `{U : Util}.

Lemma tokenize_rewrite_impl d :
  has_attr (decl_attrs d) "rewrite_ignore" = false ->
  tokenize (do_rewrite_impl_lines d)
  = Some ([TAttr; TImpl "Rewrite" (decl_name d); TFn rewrite_sig]
          ++ skip_tokens (has_field d "id")
          ++ flat_map (strategy_tokens (has_field d "id")) (get_rewrite_strategies d)
          ++ skip_tokens (has_field d "id")
          ++ [TTail TlFalse; TClose; TClose]).
Proof.
  intros Hign. unfold do_rewrite_impl_lines. rewrite Hign.
  repeat first
    [ apply tokenize_app
    | apply tokenize_flat_map; intros strat; unfold strategy_tokens
    | apply tokenize_yield_if
    | apply tokenize_cons
    | apply tokenize_nil
    | apply classify_impl_rewrite
    | apply classify_trace
    | apply classify_trace6
    | apply classify_strategy
    | reflexivity ].
Qed.

End RewriteImpl.

(** ** Tokens to syntax *)

Lemma unsnoc_snoc {A} (l : list A) x : unsnoc (l ++ [x]) = Some (l, x).
Proof.
  induction l as [|y l IH]; [done|].
  cbn [app unsnoc]. by rewrite IH.
Qed.

Lemma parse_impl1_intro lines tr ty sig body ss t :
  tokenize lines = Some ([TAttr; TImpl tr ty; TFn sig] ++ body ++ [TClose; TClose]) ->
  parse_stmts PTop [] body = Some (ss, t) ->
  parse_impl1 lines = Some (tr, ty, mkFn sig ss t).
Proof.
  intros Htok Hbody. unfold parse_impl1. rewrite Htok. cbn [app].
  replace (TFn sig :: body ++ [TClose; TClose])
    with ((TFn sig :: body ++ [TClose]) ++ [TClose])
    by (cbn [app]; rewrite <- app_assoc; reflexivity).
  rewrite unsnoc_snoc. unfold parse_fn. rewrite unsnoc_snoc, Hbody. done.
Qed.

Lemma parse_stmts_skips b : forall acc ts,
  parse_stmts PTop acc (skip_tokens b ++ ts)
  = parse_stmts PTop (acc ++ map Simple (skips b)) ts.
Proof. intros acc ts. destruct b; cbn; by rewrite ?app_nil_r. Qed.

Lemma parse_stmts_strategy hf s acc ts :
  parse_stmts PTop acc (strategy_tokens hf s ++ ts)
  = parse_stmts PTop (acc ++ strategy_stmts hf s) ts.
Proof.
  unfold strategy_tokens, strategy_stmts.
  destruct hf; cbn; rewrite <- ?app_assoc; reflexivity.
Qed.

Lemma parse_stmts_strategies hf strats : forall acc ts,
  parse_stmts PTop acc (flat_map (strategy_tokens hf) strats ++ ts)
  = parse_stmts PTop (acc ++ flat_map (strategy_stmts hf) strats) ts.
Proof.
  induction strats as [|s strats IH]; intros acc ts.
  - cbn. by rewrite app_nil_r.
  - cbn [flat_map]. rewrite <- app_assoc, parse_stmts_strategy, IH, <- app_assoc. done.
Qed.

Section RewriteImplSyntax.
Context `{U : Util}.

Lemma parse_rewrite_impl d :
  has_attr (decl_attrs d) "rewrite_ignore" = false ->
  parse_impl1 (do_rewrite_impl_lines d)
  = Some ("Rewrite", decl_name d,
          rewrite_fn (has_field d "id") (get_rewrite_strategies d)).
Proof.
  intros Hign. unfold rewrite_fn.
  eapply parse_impl1_intro with
    (body := skip_tokens (has_field d "id")
             ++ flat_map (strategy_tokens (has_field d "id")) (get_rewrite_strategies d)
             ++ skip_tokens (has_field d "id") ++ [TTail TlFalse]).
  - rewrite (tokenize_rewrite_impl d Hign). f_equal. f_equal.
    rewrite <- !app_assoc. reflexivity.
  - rewrite parse_stmts_skips, parse_stmts_strategies, parse_stmts_skips.
    cbn [parse_stmts app]. rewrite <- !app_assoc. reflexivity.
Qed.

End RewriteImplSyntax.

(** ** Running the generated [rewrite] *)

Section RewriteImplMeaning.
Context `{R : Runtime}.

Lemma exec_stmts_app a : forall l c b,
  exec_stmts l c (a ++ b)
  = match exec_stmts l c a with
    | Normal l' c' => exec_stmts l' c' b
    | o => o
    end.
Proof.
  induction a as [|s a IH]; intros l c b; [done|].
  cbn [app exec_stmts]. destruct (exec_stmt l c s); auto.
Qed.

Lemma exec_simples_app a : forall l c b,
  exec_simples l c (a ++ b)
  = match exec_simples l c a with
    | Normal l' c' => exec_simples l' c' b
    | o => o
    end.
Proof.
  induction a as [|s a IH]; intros l c b; [done|].
  cbn [app exec_simples]. destruct (exec_simple l c s); auto.
Qed.

Lemma exec_stmts_skips b l c : exec_stmts l c (map Simple (skips b)) = Normal l c.
Proof. by destruct b. Qed.

Lemma exec_simples_skips b l c : exec_simples l c (skips b) = Normal l c.
Proof. by destruct b. Qed.

Lemma exec_strategy hf s l c :
  exec_stmts l c (strategy_stmts hf s)
  = let m := mark c in
    let '(ok, c') := call_bool (strategy_call s) c in
    if ok then Returned (Some true) c'
    else Normal (mkLocals (Some m) (Some false) (l_old l)) (rewind m c').
Proof.
  unfold strategy_stmts.
  rewrite (exec_stmts_app [Simple LetMark]). cbn [exec_stmts exec_stmt exec_simple].
  rewrite exec_stmts_app, exec_stmts_skips.
  cbn [exec_stmts exec_stmt exec_simple].
  destruct (call_bool (strategy_call s) c) as [ok c'].
  cbn [l_ok l_mark l_old].
  destruct ok; rewrite exec_simples_app, exec_simples_skips;
    cbn [exec_simples exec_simple l_mark]; reflexivity.
Qed.

Lemma exec_strategies hf rest strats : forall l c,
  (forall l' c', exec_stmts l' c' rest = Normal l' c') ->
  match try_strategies strats c with
  | (true, c') =>
      exec_stmts l c (flat_map (strategy_stmts hf) strats ++ rest)
      = Returned (Some true) c'
  | (false, c') =>
      exists l', exec_stmts l c (flat_map (strategy_stmts hf) strats ++ rest)
                 = Normal l' c'
  end.
Proof.
  induction strats as [|s strats IH]; intros l c Hrest.
  - cbn. eauto.
  - cbn [try_strategies flat_map]. rewrite <- app_assoc, exec_stmts_app, exec_strategy.
    cbv zeta.
    destruct (call_bool (strategy_call s) c) as [[] c']; [done|].
    apply IH, Hrest.
Qed.

Lemma run_rewrite_fn hf strats c :
  run_fn (rewrite_fn hf strats) c
  = let '(ok, c') := try_strategies strats c in Done (Some ok) c'.
Proof.
  unfold run_fn, rewrite_fn. cbn [fn_stmts fn_tail].
  rewrite exec_stmts_app, exec_stmts_skips.
  pose proof (exec_strategies hf (map Simple (skips hf)) strats no_locals c
                (fun l' c' => exec_stmts_skips hf l' c')) as H.
  destruct (try_strategies strats c) as [[] c'].
  - by rewrite H.
  - destruct H as [l' ->]. reflexivity.
Qed.

End RewriteImplMeaning.

(** C4.  For every node type that is not ignored, the emitted [Rewrite] impl
    is [impl Rewrite for name] with one function [rewrite], and running the
    body of that function tries the strategies of [get_rewrite_strategies] in
    order: it takes a mark, runs the strategy, returns true at once with the
    context the strategy left when it succeeds, rewinds to the mark when it
    fails, and returns false when every strategy has failed. *)
Theorem rewrite_tries_strategies_in_order `{U : Util} (d : Decl) :
  has_attr (decl_attrs d) "rewrite_ignore" = false ->
  exists f,
    parse_impl1 (do_rewrite_impl_lines d) = Some ("Rewrite", decl_name d, f)
    /\ fn_sig f = rewrite_sig
    /\ forall (R : Runtime) (rcx : RewriteCtxt Edit ExprPrec),
         run_fn f rcx
         = let '(ok, rcx') := try_strategies (get_rewrite_strategies d) rcx in
           Done (Some ok) rcx'.
Proof.
  intros Hign. eexists. split; [apply (parse_rewrite_impl d Hign)|].
  split; [reflexivity|]. intros R rcx. apply run_rewrite_fn.
Qed.

Lemma rewrite_tries_strategies_in_order_witness :
  exists f,
    parse_impl1 (do_rewrite_impl_lines (U := Sample.util) Sample.lit)
    = Some ("Rewrite", "Lit", f)
    /\ fn_sig f = rewrite_sig
    /\ forall (R : Runtime) (rcx : RewriteCtxt Edit ExprPrec),
         run_fn f rcx
         = let '(ok, rcx') := try_strategies (get_rewrite_strategies Sample.lit) rcx in
           Done (Some ok) rcx'.
Proof. exact (rewrite_tries_strategies_in_order (U := Sample.util) Sample.lit eq_refl). Defined.

(** C2: the generator has no failing path.  For a struct whose [Recursive]
    impl is skipped the strategy list is empty, and [do_rewrite_impl] still
    yields a [Rewrite] impl: its [rewrite] runs and returns false, leaving the
    context as it was. *)
Theorem empty_strategy_list_still_emits_impl :
  get_rewrite_strategies Sample.token_tree = []
  /\ do_rewrite_impl_lines (U := Sample.util) Sample.token_tree
     = [ "#[allow(unused)]";
         "impl Rewrite for TokenTree {";
         "  fn rewrite(old: &Self, new: &Self, mut rcx: RewriteCtxtRef) -> bool {";
         "    false";
         "  }";
         "}" ]
  /\ forall (U : Util) (R : Runtime) (rcx : RewriteCtxt Edit ExprPrec),
       run_impl1 (do_rewrite_impl_lines Sample.token_tree) rcx
       = Some (Done (Some false) rcx).
Proof.
  split; [reflexivity|]. split; [reflexivity|].
  intros U R rcx. unfold run_impl1.
  rewrite (parse_rewrite_impl Sample.token_tree eq_refl), run_rewrite_fn.
  reflexivity.
Qed.

(** ** The [RecoverChildren] impl *)

Lemma classify_impl_recover_children n :
  classify ("impl RecoverChildren for " +:+ n +:+ " {")
  = Some (TImpl "RecoverChildren" n).
Proof. classify_tac. Qed.

Section RecoverImpl.
Context `{U : Util}.

Lemma parse_recover_children_impl_lines d :
  parse_recover_children_impl (do_recover_children_impl_lines d)
  = Some (mkRecoverImpl (decl_name d) recover_children_sig
            (indent (do_recover_children_match d) "    ")
            (recover_fn recover_node_and_children_sig "None"
               (type_has_impl d "Recover"))
            (recover_fn recover_node_restricted_sig "Some(old_span)"
               (type_has_impl d "Recover"))).
Proof.
  unfold do_recover_children_impl_lines, parse_recover_children_impl.
  cbn [app]. cbn [tokenize].
  rewrite classify_impl_recover_children.
  destruct (type_has_impl d "Recover"); reflexivity.
Qed.

End RecoverImpl.

Section RecoverImplMeaning.
Context `{R : Runtime}.

Lemma run_recover_fn sig restriction impl_recover c :
  run_fn (recover_fn sig restriction impl_recover) c
  = recover_node impl_recover restriction c.
Proof.
  unfold run_fn, recover_fn, recover_node, descend_into_children.
  destruct impl_recover;
    cbn [app fn_stmts fn_tail exec_stmts exec_stmt exec_simples exec_simple].
  - destruct (call_bool (recover_hook_call restriction) c) as [[] c'];
      cbn [exec_simples exec_simple]; [done|].
    by destruct (call_unit recover_children_call c').
  - by destruct (call_unit recover_children_call c).
Qed.

End RecoverImplMeaning.

(** C7.  The emitted [RecoverChildren] impl holds [recover_children], whose
    body is the match over the variants, and the two entry points of the
    walk.  [recover_node_and_children] calls the hook [recover] only when the
    type has a [Recover] impl, with [None] as restriction; when the hook
    returns true it returns without descending, and when the hook is absent
    or returns false it calls [recover_children].  [recover_node_restricted]
    does the same with [Some(old_span)]. *)
Theorem recovery_hook_then_children `{U : Util} (d : Decl) :
  exists impl,
    parse_recover_children_impl (do_recover_children_impl_lines d) = Some impl
    /\ rc_type impl = decl_name d
    /\ rc_children_sig impl = recover_children_sig
    /\ rc_children_body impl = indent (do_recover_children_match d) "    "
    /\ fn_sig (rc_node_and_children impl) = recover_node_and_children_sig
    /\ fn_sig (rc_node_restricted impl) = recover_node_restricted_sig
    /\ forall (R : Runtime) (rcx : RewriteCtxt Edit ExprPrec),
         run_fn (rc_node_and_children impl) rcx
         = recover_node (type_has_impl d "Recover") "None" rcx
         /\ run_fn (rc_node_restricted impl) rcx
            = recover_node (type_has_impl d "Recover") "Some(old_span)" rcx.
Proof.
  eexists. split; [apply parse_recover_children_impl_lines|].
  repeat (split; [reflexivity|]).
  intros R rcx. split; apply run_recover_fn.
Qed.

(** ** The matches over the variants: lines to syntax *)

Lemma classify_arm_pat1 p : classify ("  (&" +:+ p +:+ ",") = Some (TArmPat1 p).
Proof. classify_tac. Qed.

Lemma classify_arm_pat2 p : classify ("   &" +:+ p +:+ ") => {") = Some (TArmPat2 p).
Proof. classify_tac. Qed.

Lemma classify_let_old6 e :
  classify ("      let old = rcx.replace_expr_prec(" +:+ e +:+ ");")
  = Some (TSimple (LetOldReplace e)).
Proof. classify_tac. Qed.

Lemma classify_let_old4 e :
  classify ("    let old = rcx.replace_expr_prec(" +:+ e +:+ ");")
  = Some (TSimple (LetOldReplace e)).
Proof. classify_tac. Qed.

Lemma classify_replace6 e :
  classify ("      rcx.replace_expr_prec(" +:+ e +:+ ");") = Some (TSimple (Replace e)).
Proof. classify_tac. Qed.

Lemma classify_replace4 e :
  classify ("    rcx.replace_expr_prec(" +:+ e +:+ ");") = Some (TSimple (Replace e)).
Proof. classify_tac. Qed.

Lemma classify_let_ok_and c :
  classify ("      let ok = ok && " +:+ c +:+ ";") = Some (TSimple (LetOkAnd c)).
Proof. classify_tac. Qed.

Lemma classify_let_ok_first n :
  classify ("      let ok = Rewrite::rewrite(&" +:+ n +:+ "1[0], &" +:+ n
              +:+ "2[0], rcx.borrow());")
  = Some (TSimple (LetOk ("Rewrite::rewrite(&" +:+ n +:+ "1[0], &" +:+ n
                             +:+ "2[0], rcx.borrow())"))).
Proof. classify_tac. Qed.

Lemma classify_let_ok_mk f a b :
  classify ("      let ok = " +:+ mk_rewrite f a b +:+ ";")
  = Some (TSimple (LetOk (mk_rewrite f a b))).
Proof. unfold mk_rewrite. destruct (seq_rewrite_mode f); classify_tac. Qed.

Lemma classify_recover_first n :
  classify ("    RecoverChildren::recover_node_and_children(&" +:+ n
              +:+ "_r[0], &" +:+ n +:+ "_n[0], rcx.borrow());")
  = Some (TSimple (Call ("RecoverChildren::recover_node_and_children(&" +:+ n
                           +:+ "_r[0], &" +:+ n +:+ "_n[0], rcx.borrow())"))).
Proof. classify_tac. Qed.

Lemma classify_recover_rest n :
  classify ("    RecoverChildren::recover_node_and_children(&" +:+ n
              +:+ "_r[1..], &" +:+ n +:+ "_n[1..], rcx.borrow());")
  = Some (TSimple (Call ("RecoverChildren::recover_node_and_children(&" +:+ n
                           +:+ "_r[1..], &" +:+ n +:+ "_n[1..], rcx.borrow())"))).
Proof. classify_tac. Qed.

Lemma classify_recover_field n :
  classify ("    RecoverChildren::recover_node_and_children(" +:+ n
              +:+ "_r, " +:+ n +:+ "_n, rcx.borrow());")
  = Some (TSimple (Call ("RecoverChildren::recover_node_and_children(" +:+ n
                           +:+ "_r, " +:+ n +:+ "_n, rcx.borrow())"))).
Proof. classify_tac. Qed.

Lemma tokenize_if (b : bool) l t :
  classify l = Some t -> tokenize (yield_if b l) = Some (if b then [t] else []).
Proof. intros H. destruct b; cbn [yield_if]; [|done]. by apply tokenize_cons. Qed.

Ltac tokenize_tac :=
  cbn [app map yield_if];
  repeat first
    [ apply tokenize_nil
    | apply tokenize_cons
    | apply tokenize_if
    | apply classify_arm_pat1
    | apply classify_arm_pat2
    | apply classify_let_old6
    | apply classify_let_old4
    | apply classify_let_ok_first
    | apply classify_let_ok_and
    | apply classify_let_ok_mk
    | apply classify_recover_first
    | apply classify_recover_rest
    | apply classify_recover_field
    | apply classify_replace6
    | apply classify_replace4
    | reflexivity ].

Section MatchTokenize.
Context `{U : Util}.


Lemma tokenize_recover_field ce f :
  tokenize (recover_field_lines ce f) = Some (recover_field_tokens ce f).
Proof.
  unfold recover_field_lines, recover_field_tokens, recover_field_code.
  destruct (has_attr (field_attrs f) "rewrite_ignore"); [done|].
  destruct (has_attr (field_attrs f) "prec_first").
  - tokenize_tac.
  - destruct ce; cbn [yield_if app map]; tokenize_tac.
Qed.


Lemma tokenize_recover_match d :
  is_struct_or_enum d = true ->
  has_attr (decl_attrs d) "rewrite_ignore" = false ->
  tokenize (do_recover_children_match_lines d)
  = Some ([TMatch "reparsed" "new"]
          ++ flat_map (recover_arm_tokens
                         (has_attr (decl_attrs d) "prec_contains_expr"))
                      (variants_paths d)
          ++ [TDefaultPanic; TClose]).
Proof.
  intros Hk Hign. unfold do_recover_children_match_lines. rewrite Hk, Hign.
  cbn [negb orb].
  apply tokenize_app; [reflexivity|].
  apply tokenize_app; [|reflexivity].
  apply tokenize_flat_map. intros [v path]. unfold recover_arm_tokens.
  apply tokenize_app; [tokenize_tac|].
  apply tokenize_app; [|reflexivity].
  apply tokenize_flat_map. intros f. apply tokenize_recover_field.
Qed.

End MatchTokenize.


Lemma parse_arms_body p1 p2 code : forall ss arms rest,
  parse_arms (MBody p1 p2 ss) arms (map TSimple code ++ rest)
  = parse_arms (MBody p1 p2 (ss ++ code)) arms rest.
Proof.
  induction code as [|s code IH]; intros ss arms rest.
  - cbn. by rewrite app_nil_r.
  - cbn [map app parse_arms]. rewrite IH, <- app_assoc. done.
Qed.




Lemma parse_arms_recover_fields ce p1 p2 fs : forall ss arms rest,
  parse_arms (MBody p1 p2 ss) arms
             (flat_map (recover_field_tokens ce) fs ++ rest)
  = parse_arms (MBody p1 p2
                  (ss ++ flat_map (recover_field_code ce)
                           (List.filter
                              (fun f => negb (has_attr (field_attrs f) "rewrite_ignore"))
                              fs)))
               arms rest.
Proof.
  induction fs as [|f fs IH]; intros ss arms rest.
  - cbn. by rewrite app_nil_r.
  - cbn [flat_map List.filter]. rewrite <- app_assoc.
    unfold recover_field_tokens at 1.
    destruct (has_attr (field_attrs f) "rewrite_ignore"); cbn [negb app].
    + apply IH.
    + rewrite parse_arms_body, IH. cbn [flat_map]. rewrite <- app_assoc. reflexivity.
Qed.

Section MatchParse.
Context `{U : Util}.


Lemma parse_arms_recover_arms ce vps : forall arms,
  parse_arms MArms arms
             (flat_map (recover_arm_tokens ce) vps ++ [TDefaultPanic; TClose])
  = Some (arms ++ map (recover_arm ce) vps, DefaultPanic).
Proof.
  induction vps as [|vp vps IH]; intros arms.
  - cbn. by rewrite app_nil_r.
  - cbn [flat_map map]. unfold recover_arm_tokens at 1.
    rewrite <- !app_assoc. cbn [app parse_arms].
    rewrite parse_arms_recover_fields.
    cbn [app parse_arms]. rewrite IH, <- app_assoc. reflexivity.
Qed.


Lemma parse_recover_match d :
  is_struct_or_enum d = true ->
  has_attr (decl_attrs d) "rewrite_ignore" = false ->
  parse_match (do_recover_children_match_lines d) = Some (recover_match d).
Proof.
  intros Hk Hign. unfold parse_match. rewrite (tokenize_recover_match d Hk Hign).
  cbn [app]. rewrite parse_arms_recover_arms. reflexivity.
Qed.

End MatchParse.

(** ** Running the matches *)



Lemma find_all_false {A} (p : A -> bool) l :
  (forall x, In x l -> p x = false) -> List.find p l = None.
Proof.
  induction l as [|x l IH]; intros H; [done|].
  cbn [List.find]. rewrite (H x (or_introl eq_refl)).
  apply IH. intros y Hy. apply H. by right.
Qed.


Section MatchMeaning.
Context `{R : Runtime}.





End MatchMeaning.

Section RecursiveBody.
Context `{U : Util} `{R : Runtime}.


End RecursiveBody.



(** ** Precedence bookkeeping *)




Section Bookkeeping.
Context `{R : Runtime}.



End Bookkeeping.


(** ** Variant mismatch in the recovery walk *)

(** C8, as amended.  For a struct or enum type that is not marked
    [rewrite_ignore], the body of the emitted [recover_children] is a match on
    [(reparsed, new)] whose catch-all arm panics: with patterns that tell the
    variants apart, it panics whenever the two trees are of different
    variants.  For a type marked [rewrite_ignore], and for a type that is
    neither a struct nor an enum, the body is empty: it does nothing and
    leaves the context as it was, whatever the variants are. *)
Theorem recover_children_panics_on_mismatch `{U : Util} `{R : Runtime}
    (d : Decl) (tag_reparsed tag_new : string) (rcx : RewriteCtxt Edit ExprPrec) :
  (forall v path, In (v, path) (variants_paths d) ->
     pat_matches (struct_pattern v path "_r") "reparsed" = String.eqb tag_reparsed path
     /\ pat_matches (struct_pattern v path "_n") "new" = String.eqb tag_new path) ->
  tag_reparsed <> tag_new ->
  run_recover_children (do_recover_children_match_lines d) rcx
  = Some (if is_struct_or_enum d && negb (has_attr (decl_attrs d) "rewrite_ignore")
          then Panicked else Done None rcx).
Proof.
  intros Hpat Hne.
  destruct (is_struct_or_enum d) eqn:Hk;
    [destruct (has_attr (decl_attrs d) "rewrite_ignore") eqn:Hign|]; cbn [andb negb].
  - unfold do_recover_children_match_lines. by rewrite Hk, Hign.
  - assert (Hlines : exists l ls, do_recover_children_match_lines d = l :: ls).
    { unfold do_recover_children_match_lines. rewrite Hk, Hign. cbn [negb orb app].
      eauto. }
    destruct Hlines as (l0 & ls & Hlines).
    unfold run_recover_children. rewrite Hlines, <- Hlines.
    unfold run_match. rewrite (parse_recover_match d Hk Hign).
    unfold exec_match. rewrite find_all_false; [reflexivity|].
    intros a Ha. cbn [match_arms recover_match] in Ha.
    apply in_map_iff in Ha as ([v path] & <- & Hin).
    destruct (Hpat v path Hin) as [H1 H2].
    unfold arm_selected. cbn. rewrite H1, H2.
    destruct (String.eqb_spec tag_reparsed path) as [->|]; [|done].
    destruct (String.eqb_spec tag_new path) as [->|]; [|done].
    done.
  - unfold do_recover_children_match_lines. by rewrite Hk.
Qed.

Lemma recover_children_panics_on_mismatch_witness :
  @run_recover_children rt_binary_block
    (do_recover_children_match_lines (U := Sample.util) Sample.expr_kind)
    (rcx0 : RewriteCtxt (@Edit rt_binary_block) (@ExprPrec rt_binary_block))
  = Some (@Panicked rt_binary_block).
Proof.
  refine (@recover_children_panics_on_mismatch Sample.util rt_binary_block
            Sample.expr_kind "ExprKind::Binary" "ExprKind::Block" rcx0 _ _).
  - intros v path Hin. cbn in Hin.
    destruct Hin as [E|[E|[E|[]]]]; injection E as <- <-; split; reflexivity.
  - discriminate.
Defined.

(** C8 as stated fails: for an enum marked [rewrite_ignore] the generator
    yields no match at all, so when the reparsed tree is [Outer] and the new
    one [Inner] the body of [recover_children] ends without a panic. *)
Lemma ignored_type_mismatch_does_not_panic :
  do_recover_children_match_lines (U := Sample.util) Sample.attr_style = []
  /\ @pat_matches rt_outer_inner
       (struct_pattern (Util := Sample.util) (mkVariant "Outer" []) "AttrStyle::Outer" "_r")
       "reparsed" = true
  /\ @pat_matches rt_outer_inner
       (struct_pattern (Util := Sample.util) (mkVariant "Outer" []) "AttrStyle::Outer" "_n")
       "new" = false
  /\ @run_recover_children rt_outer_inner
       (do_recover_children_match_lines (U := Sample.util) Sample.attr_style)
       (rcx0 : RewriteCtxt (@Edit rt_outer_inner) (@ExprPrec rt_outer_inner))
     = Some (@Done rt_outer_inner None rcx0)
  /\ @run_recover_children rt_outer_inner
       (do_recover_children_match_lines (U := Sample.util) Sample.attr_style)
       (rcx0 : RewriteCtxt (@Edit rt_outer_inner) (@ExprPrec rt_outer_inner))
     <> Some (@Panicked rt_outer_inner).
Proof. repeat split; try reflexivity. discriminate. Qed.

(** ** The substitution of [self.foo] *)






Section SelfFieldSub.
Variable repl : string -> string.


Lemma no_match_at_nonword d p :
  is_word d = false -> self_field_match (String d p) = None.
Proof.
  intros Hd. unfold self_field_match. cbn [strip_prefix].
  destruct (Ascii.eqb_spec "s"%char d) as [<-|]; [discriminate Hd|done].
Qed.

Lemma self_field_sub_after_word post :
  head_nonword post = true ->
  self_field_sub repl true 0 post = self_field_sub repl false 0 post.
Proof.
  destruct post as [|d p]; [done|]. cbn [head_nonword]. intros Hd.
  apply negb_true_iff in Hd. cbn [self_field_sub].
  by rewrite (no_match_at_nonword d p Hd).
Qed.





End SelfFieldSub.

Section Occurrences.
Variable repl : string -> string.





End Occurrences.





(** * Further properties of the generator *)

(** ** Trait availability *)

(** A trait listed in [rewrite_skip] is neither assumed to have an impl nor
    given a generated one, whatever the other attributes and the kind are. *)
Theorem skipped_trait_has_no_impl (d : Decl) (skip trait : string) :
  decl_attrs d !! "rewrite_skip" = Some skip ->
  str_in trait (split_comma skip) = true ->
  type_has_impl d trait = false /\ type_needs_generated_impl d trait = false.
Proof.
  intros H Hin. unfold type_has_impl, type_needs_generated_impl, listed.
  by rewrite H, Hin.
Qed.

Lemma skipped_trait_has_no_impl_witness :
  type_has_impl Sample.token_tree "Recursive" = false
  /\ type_needs_generated_impl Sample.token_tree "Recursive" = false.
Proof.
  exact (skipped_trait_has_no_impl Sample.token_tree "Recursive" "Recursive"
           eq_refl eq_refl).
Defined.

(** Every trait whose impl is generated is a trait the other generators may
    assume an impl of. *)
Theorem generated_impl_is_available (d : Decl) (trait : string) :
  type_needs_generated_impl d trait = true -> type_has_impl d trait = true.
Proof.
  unfold type_needs_generated_impl, type_has_impl.
  destruct (listed (decl_attrs d !! "rewrite_skip") trait); [done|].
  destruct (listed (decl_attrs d !! "rewrite_gen") trait); [done|].
  destruct (listed (decl_attrs d !! "rewrite_custom") trait); [done|].
  destruct (has_attr (decl_attrs d) "rewrite_print"
            && str_in trait ["PrintParse"; "Splice"]); [done|].
  destruct (has_attr (decl_attrs d) "rewrite_print_recover"
            && str_in trait ["PrintParse"; "Splice"; "Recover"]); [done|].
  done.
Qed.

Lemma generated_impl_is_available_witness :
  type_has_impl Sample.lit "Recursive" = true.
Proof. exact (generated_impl_is_available Sample.lit "Recursive" eq_refl). Defined.

(** The traits generated by default ([Rewrite], [MaybeRewriteSeq],
    [RecoverChildren]) get a generated impl unless [rewrite_skip] lists them:
    [rewrite_custom] does not suppress their generation. *)
Theorem default_trait_generated_unless_skipped (d : Decl) (trait : string) :
  str_in trait DEFAULT_GEN_TRAITS = true ->
  type_needs_generated_impl d trait
  = negb (listed (decl_attrs d !! "rewrite_skip") trait).
Proof.
  intros Hdef. unfold type_needs_generated_impl. rewrite Hdef.
  destruct (listed (decl_attrs d !! "rewrite_skip") trait); [done|].
  destruct (listed (decl_attrs d !! "rewrite_gen") trait); [done|].
  by destruct (has_attr (decl_attrs d) "rewrite_seq_item" && String.eqb trait "SeqItem").
Qed.

Lemma default_trait_generated_unless_skipped_witness :
  type_needs_generated_impl
    (mkDecl Struct "Path" (list_to_map [("rewrite_custom", "Rewrite")]) []) "Rewrite"
  = true.
Proof.
  exact (default_trait_generated_unless_skipped
           (mkDecl Struct "Path" (list_to_map [("rewrite_custom", "Rewrite")]) [])
           "Rewrite" eq_refl).
Defined.

(** The handwritten traits [PrintParse], [Splice] and [Recover] get a
    generated impl only when [rewrite_gen] lists them (and [rewrite_skip]
    does not). *)
Theorem handwritten_trait_generated_only_on_request (d : Decl) (trait : string) :
  str_in trait ["PrintParse"; "Splice"; "Recover"] = true ->
  type_needs_generated_impl d trait
  = negb (listed (decl_attrs d !! "rewrite_skip") trait)
    && listed (decl_attrs d !! "rewrite_gen") trait.
Proof.
  intros Hin. unfold type_needs_generated_impl.
  destruct (listed (decl_attrs d !! "rewrite_skip") trait); [done|].
  destruct (listed (decl_attrs d !! "rewrite_gen") trait); [done|].
  cbn [str_in existsb] in Hin.
  assert (Ht : trait = "PrintParse" \/ trait = "Splice" \/ trait = "Recover").
  { apply orb_true_iff in Hin as [H|Hin]; [left; by apply String.eqb_eq|].
    apply orb_true_iff in Hin as [H|Hin]; [right; left; by apply String.eqb_eq|].
    apply orb_true_iff in Hin as [H|Hin]; [right; right; by apply String.eqb_eq|].
    discriminate Hin. }
  destruct Ht as [E|[E|E]]; rewrite E;
    cbn [String.eqb Ascii.eqb]; rewrite andb_false_r;
    by destruct (is_struct_or_enum d).
Qed.

Lemma handwritten_trait_generated_only_on_request_witness :
  type_needs_generated_impl Sample.expr_kind "Recover" = false.
Proof.
  exact (handwritten_trait_generated_only_on_request Sample.expr_kind "Recover" eq_refl).
Defined.

(** For a declaration without attributes the available impls are exactly the
    generated ones: [Rewrite], [MaybeRewriteSeq] and [RecoverChildren] for
    every kind, and [Recursive] for structs and enums. *)
Theorem impls_without_attributes (d : Decl) (trait : string) :
  decl_attrs d = ∅ ->
  type_has_impl d trait
  = str_in trait ["Rewrite"; "MaybeRewriteSeq"; "RecoverChildren"]
    || is_struct_or_enum d && String.eqb trait "Recursive"
  /\ type_needs_generated_impl d trait = type_has_impl d trait.
Proof.
  intros E. unfold type_has_impl, type_needs_generated_impl, listed, has_attr.
  rewrite E, !lookup_empty. cbn [andb].
  unfold DEFAULT_GEN_TRAITS, DEFAULT_STRUCT_ENUM_GEN_TRAITS.
  destruct (str_in trait ["Rewrite"; "MaybeRewriteSeq"; "RecoverChildren"]); [done|].
  cbn [str_in existsb orb]. rewrite orb_false_r.
  by destruct (is_struct_or_enum d && String.eqb trait "Recursive").
Qed.

Lemma impls_without_attributes_witness :
  type_has_impl Sample.mutability "Recursive" = false
  /\ type_needs_generated_impl Sample.mutability "Recursive"
     = type_has_impl Sample.mutability "Recursive".
Proof. exact (impls_without_attributes Sample.mutability "Recursive" eq_refl). Defined.
